(** * GlyphNet: generator / discriminator topology and adversarial loss

    A shallow embedding of [glyphnet/models.py].  The file follows the
    source top to bottom:

    - the Python numbers the builders compute with (unbounded [int]s and
      binary64 [float]s, with the exceptions their operators raise);
    - the layer-name formatter [make_name];
    - the Keras functional graph the two block constructors and the two
      model builders assemble, as a term of symbolic tensors;
    - the loss selector [adversarial_loss], over an interface of tensor
      operations.

    The theorems come after all definitions. *)

From Stdlib Require Import ZArith List String Ascii Bool Lia.
From Stdlib Require Import DecimalString DecimalZ.
From Stdlib Require Import Floats.SpecFloat.
From Stdlib Require Import Reals Lra.
Import ListNotations.

Set Warnings "-register-all".


Local Open Scope string_scope.
Local Open Scope Z_scope.

(* ================================================================= *)
(** ** Exceptions and the error monad *)

(** The exceptions this module can raise: [RuntimeError] comes from
    [adversarial_loss]; the other three are the ones Python's [/] and
    [int()] raise on numbers. *)
Inductive exception : Type :=
| RuntimeError (msg : string)
| OverflowError
| ZeroDivisionError
| ValueError.

Inductive result (A : Type) : Type :=
| Ok (a : A)
| Raise (e : exception).

Arguments Ok {A} a.
Arguments Raise {A} e.

Definition bind {A B : Type} (r : result A) (k : A -> result B) : result B :=
  match r with
  | Ok a => k a
  | Raise e => Raise e
  end.

Notation "x <- r ;; k" := (bind r (fun x => k))
  (at level 61, r at next level, right associativity).
Notation "' p <- r ;; k" := (bind r (fun x => let p := x in k))
  (at level 61, p pattern, r at next level, right associativity).

(* ================================================================= *)
(** ** Python numbers *)

Module Py.

(** binary64 *)
Definition prec : Z := 53.
Definition emax : Z := 1024.

(** A Python number is an [int] of any size or a binary64 [float]. *)
Inductive num : Type :=
| Int (n : Z)
| Float (x : spec_float).

(** An integer as an unrounded binary fraction: mantissa [|n|], exponent 0. *)
Definition raw_of_Z (n : Z) : spec_float :=
  match n with
  | Z0 => S754_zero false
  | Zpos p => S754_finite false p 0
  | Zneg p => S754_finite true p 0
  end.

(** [float(n)]: the nearest double, ties to even; too large an [int]
    raises [OverflowError]. *)
Definition float_of_int (n : Z) : result spec_float :=
  match binary_normalize prec emax n 0 false with
  | S754_infinity _ => Raise OverflowError
  | x => Ok x
  end.

Definition is_zero (x : spec_float) : bool :=
  match x with
  | S754_zero _ => true
  | _ => false
  end.

(** [a / b] on two [int]s: the correctly rounded quotient of the two
    integers (one rounding, whatever their size). *)
Definition int_truediv (a b : Z) : result spec_float :=
  if b =? 0 then Raise ZeroDivisionError
  else match SFdiv prec emax (raw_of_Z a) (raw_of_Z b) with
       | S754_infinity _ => Raise OverflowError
       | q => Ok q
       end.

(** [x / y] on two [float]s: IEEE 754 division, except that a zero
    divisor raises. *)
Definition float_truediv (x y : spec_float) : result spec_float :=
  if is_zero y then Raise ZeroDivisionError
  else Ok (SFdiv prec emax x y).

(** The [/] operator. A mixed pair converts its [int] first. *)
Definition truediv (a b : num) : result num :=
  match a, b with
  | Int m, Int n => q <- int_truediv m n ;; Ok (Float q)
  | Float x, Int n => y <- float_of_int n ;; q <- float_truediv x y ;; Ok (Float q)
  | Int m, Float y => x <- float_of_int m ;; q <- float_truediv x y ;; Ok (Float q)
  | Float x, Float y => q <- float_truediv x y ;; Ok (Float q)
  end.

(** [int(x)]: the identity on an [int]; a [float] is truncated towards
    zero, and infinities and NaN raise. *)
Definition int_of_float (x : spec_float) : result Z :=
  match x with
  | S754_zero _ => Ok 0
  | S754_finite s m e =>
      Ok (cond_Zopp s (if 0 <=? e then Zpos m * 2 ^ e else Zpos m / 2 ^ (- e)))
  | S754_infinity _ => Raise OverflowError
  | S754_nan => Raise ValueError
  end.

Definition int (a : num) : result Z :=
  match a with
  | Int n => Ok n
  | Float x => int_of_float x
  end.

(** [str(n)] of an [int], the way an f-string renders it: decimal
    digits, a leading minus sign when negative. *)
Definition str (n : Z) : string := NilZero.string_of_int (Z.to_int n).

End Py.

(* ================================================================= *)
(** ** Layer names *)

(** [make_name(block_name, layer_name, index=None)] *)
Definition make_name (block_name layer_name : string) (index : option Z) : string :=
  match index with
  | None => block_name ++ "_" ++ layer_name
  | Some i => block_name ++ "_" ++ layer_name ++ "_" ++ Py.str i
  end.

(** Characters an [int] is rendered with. *)
Definition numeric_char (c : ascii) : bool :=
  match c with
  | "0" | "1" | "2" | "3" | "4" | "5" | "6" | "7" | "8" | "9" | "-" => true
  | _ => false
  end%char.

Fixpoint all_chars (P : ascii -> bool) (s : string) : bool :=
  match s with
  | EmptyString => true
  | String c s' => P c && all_chars P s'
  end.

Definition no_underscore (s : string) : bool :=
  all_chars (fun c => negb (Ascii.eqb c "_")) s.

Definition starts_numeric (s : string) : bool :=
  match s with
  | String c _ => numeric_char c
  | EmptyString => false
  end.

(** A sub-layer name such as ["conv"], ["bn"], ["swish"] or ["deconv"]:
    no underscore in it, and it does not begin like a number. *)
Definition sub_layer_name (s : string) : bool :=
  no_underscore s && negb (starts_numeric s).

(* ================================================================= *)
(** ** The Keras functional graph *)

(** What [Activation] is given: the function [swish] of this module, or
    the framework's activation named ['sigmoid']. *)
Inductive activation : Type :=
| act_swish
| act_sigmoid.

(** The layers the module instantiates, with the arguments it passes.
    Every convolution is built with [padding='same']; [Conv2DTranspose]
    always gets kernel [(3, 3)] and strides [(2, 2)]; [Dense] carries
    its [activation] argument ([None] when left out). *)
Inductive layer : Type :=
| Input (shape : list Z)
| Reshape (target_shape : list Z)
| Conv2D (filters kernel_size strides : Z) (name : string)
| Conv2DTranspose (filters : Z) (name : string)
| BatchNormalization (name : string)
| Activation (a : activation) (name : string)
| Add (name : string)
| GlobalAveragePooling2D (name : string)
| Dense (units : Z) (act : option activation) (name : string).

(** A symbolic tensor: the layer that produced it and the tensors that
    layer was called on.  A Python variable bound to a tensor and used
    twice is the same term twice. *)
Inductive tensor : Type :=
| Call (l : layer) (inbound : list tensor).

Record model : Type := Model { inputs : list tensor; outputs : list tensor }.

Definition input_layer (shape : list Z) : tensor := Call (Input shape) [].

(** [conv_block(x, filters, block_name, index=None, pooling=False,
    one_by_one=False, sigmoid=False)] *)
Definition conv_block (x : tensor) (filters : Z) (block_name : string)
    (index : option Z) (pooling one_by_one sigmoid : bool) : tensor :=
  let _make_name := fun layer_name => make_name block_name layer_name index in
  let kernel := if one_by_one then 1 else 3 in
  let stride := if pooling then 2 else 1 in
  let activation := if negb sigmoid then act_swish else act_sigmoid in
  let x := Call (Conv2D filters kernel stride (_make_name "conv")) [x] in
  let x := Call (BatchNormalization (_make_name "bn")) [x] in
  let x := Call (Activation activation (_make_name "swish")) [x] in
  x.

(** [deconv_block(x, filters, block_name, index)] *)
Definition deconv_block (x : tensor) (filters : Z) (block_name : string)
    (index : option Z) : tensor :=
  let _make_name := fun layer_name => make_name block_name layer_name index in
  let x := Call (Conv2DTranspose filters (_make_name "deconv")) [x] in
  let x := Call (BatchNormalization (_make_name "bn")) [x] in
  let x := Call (Activation act_swish (_make_name "swish")) [x] in
  x.

(** [for r in range(R): s = body(r, s)], stopping at the first exception. *)
Fixpoint for_each {S : Type} (rs : list nat) (body : nat -> S -> result S) (s : S)
    : result S :=
  match rs with
  | [] => Ok s
  | r :: rs' => s' <- body r s ;; for_each rs' body s'
  end.

Definition for_range {S : Type} (R : nat) (body : nat -> S -> result S) (s : S)
    : result S :=
  for_each (seq 0 R) body s.

(** The body of the generator's loop, on the pair [(x, filters)]. *)
Definition generator_stage (r : nat) (st : tensor * Py.num) : result (tensor * Py.num) :=
  let '(x, filters) := st in
  let index := Some (Z.of_nat r + 1) in
  f <- Py.int filters ;;
  let pre := deconv_block x f "deconv_block" index in
  f <- Py.int filters ;;
  let x := conv_block pre f "conv_1by1" index false true false in
  let x := Call (Add ("add_" ++ Py.str (Z.of_nat r + 1))) [pre; x] in
  filters <- Py.truediv filters (Py.Int 2) ;;
  Ok (x, filters).

(** [generator(vector_dim, R, last_channels, c)].  [R] counts loop
    iterations and is a natural number here.  The exceptions rendered
    are those of the arithmetic on [filters]; the checks the framework
    makes when a layer is constructed or called are the shape rules of
    [shape_of] below, and the theorems on the builder are stated for
    the arguments that pass them ([generator_config]). *)
Definition generator (vector_dim : Z) (R : nat) (last_channels c : Z) : result model :=
  let input_ := input_layer [vector_dim] in
  let x := Call (Reshape [1; 1; vector_dim]) [input_] in
  let filters := last_channels * 2 ^ Z.of_nat R in
  let x := conv_block x filters "stem" None false true false in
  filters <- Py.truediv (Py.Int filters) (Py.Int 2) ;;
  '(x, filters) <- for_range R generator_stage (x, filters) ;;
  let x := conv_block x c "prediction_conv" None false false true in
  Ok (Model [input_] [x]).

(** The body of the discriminator's loop.  [filters] is an [int] all
    along: it starts as a product of [int]s and is only ever doubled. *)
Definition discriminator_stage (r : nat) (st : tensor * Z) : result (tensor * Z) :=
  let '(x, filters) := st in
  let index := Some (Z.of_nat r + 1) in
  let pre := conv_block x filters "conv_block" index true false false in
  f <- Py.int (Py.Int filters) ;;
  let x := conv_block pre f "conv_1by1" index false true false in
  let x := Call (Add ("add_" ++ Py.str (Z.of_nat r + 1))) [pre; x] in
  let filters := filters * 2 in
  Ok (x, filters).

(** [discriminator(vector_dim, R, first_channels, c)].  As for
    [generator], the framework's checks are the shape rules, and the
    theorems are stated for the arguments that pass them
    ([discriminator_config]). *)
Definition discriminator (vector_dim : Z) (R : nat) (first_channels c : Z) : result model :=
  let input_dim := 2 ^ Z.of_nat R in
  let input_ := input_layer [input_dim; input_dim; c] in
  let x := input_ in
  let filters := first_channels * 2 in
  let x := conv_block x filters "stem" None false false false in
  '(x, filters) <- for_range R discriminator_stage (x, filters) ;;
  let x := Call (GlobalAveragePooling2D "prediction_GAP") [x] in
  let x := Call (Dense (vector_dim + 1) None "prediction") [x] in
  Ok (Model [input_] [x]).

(* ================================================================= *)
(** ** The loss selector *)

(** The tensor operations the two losses call, as an interface:
    [tf.nn.softmax], [tf.nn.sigmoid], the slice [y[:, -1]], the
    subtraction [n - y] from a Python [int], and
    [tf.keras.losses.binary_crossentropy]. *)
Class TensorOps (T : Type) : Type := {
  tf_nn_softmax : T -> T;
  tf_nn_sigmoid : T -> T;
  last_column : T -> T;
  rsub : Z -> T -> T;
  binary_crossentropy : T -> T -> T
}.

Section Loss.

Context {T : Type} `{TensorOps T}.

Definition one_hot_loss (y_true y_pred : T) : T :=
  let y_true := tf_nn_softmax y_true in
  let y_pred := tf_nn_softmax y_pred in
  let loss := binary_crossentropy (last_column y_true) (last_column y_pred) in
  loss.

Definition binary_loss (y_true y_pred : T) : T :=
  let loss := binary_crossentropy (tf_nn_sigmoid (last_column y_true))
                                  (rsub 1 (tf_nn_sigmoid (last_column y_pred))) in
  loss.

(** [adversarial_loss(encoding)] *)
Definition adversarial_loss (encoding : string) : result (T -> T -> T) :=
  if String.eqb encoding "one-hot" then Ok one_hot_loss
  else if String.eqb encoding "binary" then Ok binary_loss
  else Raise (RuntimeError ("Encoding '" ++ encoding ++ "' not understood")).

End Loss.

(** Tensor expressions: the free implementation of the interface, in
    which two tensors are equal only when built by the same operations. *)
Inductive expr : Type :=
| e_var (name : string)
| e_softmax (x : expr)
| e_sigmoid (x : expr)
| e_last_column (x : expr)
| e_rsub (n : Z) (x : expr)
| e_binary_crossentropy (y_true y_pred : expr).

#[export] Instance expr_ops : TensorOps expr := {
  tf_nn_softmax := e_softmax;
  tf_nn_sigmoid := e_sigmoid;
  last_column := e_last_column;
  rsub := e_rsub;
  binary_crossentropy := e_binary_crossentropy
}.

(** [s] occurs in [t] as a contiguous piece. *)
Definition occurs_in (s t : string) : Prop :=
  exists pre post : string, t = pre ++ s ++ post.

(* ================================================================= *)
(** ** Reading a built graph *)

(** The output tensor of a single-output model. *)
Definition output (m : model) : option tensor :=
  match outputs m with
  | [x] => Some x
  | _ => None
  end.

(** A block is three layers deep: its activation, its normalisation and
    its (transposed) convolution.  [block_parts] gives the convolution
    layer of the block that produced [t] and the tensor the block was
    applied to. *)
Definition block_parts (t : tensor) : option (layer * tensor) :=
  match t with
  | Call (Activation _ _) [Call (BatchNormalization _) [Call l [x]]] => Some (l, x)
  | _ => None
  end.

Definition block_input (t : tensor) : option tensor :=
  option_map snd (block_parts t).

Definition block_layer (t : tensor) : option layer :=
  option_map fst (block_parts t).

(** The layers from the model input to [t], following the first inbound
    tensor wherever a layer merges several. *)
Fixpoint main_path (t : tensor) : list layer :=
  match t with
  | Call l [] => [l]
  | Call l (x :: _) => (main_path x ++ [l])%list
  end.

(** The residual stages on the way to [t], first stage first: the two
    tensors each [Add] was called on. *)
Fixpoint stages (t : tensor) : list (tensor * tensor) :=
  match t with
  | Call (Add _) [a; b] => (stages a ++ [(a, b)])%list
  | Call _ (x :: _) => stages x
  | Call _ [] => []
  end.

(** The filter count of a convolution layer. *)
Definition layer_filters (l : layer) : option Z :=
  match l with
  | Conv2D f _ _ _ => Some f
  | Conv2DTranspose f _ => Some f
  | _ => None
  end.

Definition block_filters (t : tensor) : option Z :=
  match block_layer t with
  | Some l => layer_filters l
  | None => None
  end.

(** Per stage, the filter count of the main-branch block and of the
    residual one-by-one block. *)
Definition stage_filters (t : tensor) : list (option Z * option Z) :=
  map (fun ab => (block_filters (fst ab), block_filters (snd ab))) (stages t).

(** The filter count of the stem: the first convolution on the main path. *)
Definition stem_filters (t : tensor) : option Z :=
  match filter (fun l => match layer_filters l with Some _ => true | None => false end)
               (main_path t) with
  | l :: _ => layer_filters l
  | [] => None
  end.

(* ================================================================= *)
(** ** Shapes *)

(** The shape rules of the layers used, batch axis left out, as the
    framework documents them: [padding='same'] gives [ceil(n / stride)]
    per spatial axis, a transposed convolution with stride 2 doubles
    them, [Add] lines its two shapes up from the last axis and lets an
    axis of size 1 take the size of the other one, global average
    pooling keeps the channel axis, [Dense] replaces the last axis;
    dimensions, filter counts, kernel sizes, strides and unit counts
    are positive.  [None] is a shape error at construction. *)
Definition ceil_div (n s : Z) : Z := (n + s - 1) / s.

Definition size (shape : list Z) : Z := fold_right Z.mul 1 shape.

(** Two shapes of one rank under a merge layer: axis by axis, a size 1
    gives way to the other size, and two other sizes have to agree. *)
Fixpoint broadcast_aligned (s1 s2 : list Z) : option (list Z) :=
  match s1, s2 with
  | [], [] => Some []
  | i :: s1', j :: s2' =>
      match broadcast_aligned s1' s2' with
      | Some s =>
          if i =? 1 then Some (j :: s)
          else if j =? 1 then Some (i :: s)
          else if i =? j then Some (i :: s)
          else None
      | None => None
      end
  | _, _ => None
  end.

(** The shape of an element-wise merge: the longer shape keeps its
    leading axes, the rest is lined up with the shorter one. *)
Definition elemwise_shape (s1 s2 : list Z) : option (list Z) :=
  let long := if (List.length s1 <? List.length s2)%nat then s2 else s1 in
  let short := if (List.length s1 <? List.length s2)%nat then s1 else s2 in
  let k := (List.length long - List.length short)%nat in
  match broadcast_aligned (skipn k long) short with
  | Some s => Some (firstn k long ++ s)%list
  | None => None
  end.

Definition layer_shape (l : layer) (ins : list (option (list Z))) : option (list Z) :=
  match l, ins with
  | Input shape, [] => if forallb (Z.ltb 0) shape then Some shape else None
  | Reshape target, [Some s] =>
      if size s =? size target then Some target else None
  | Conv2D f k st _, [Some [h; w; _]] =>
      if (0 <? f) && (0 <? k) && (0 <? st)
      then Some [ceil_div h st; ceil_div w st; f] else None
  | Conv2DTranspose f _, [Some [h; w; _]] =>
      if 0 <? f then Some [h * 2; w * 2; f] else None
  | BatchNormalization _, [Some s] => Some s
  | Activation _ _, [Some s] => Some s
  | Add _, [Some s1; Some s2] => elemwise_shape s1 s2
  | GlobalAveragePooling2D _, [Some [_; _; ch]] => Some [ch]
  | Dense units _ _, [Some (d :: s)] =>
      if 0 <? units then Some (removelast (d :: s) ++ [units])%list else None
  | _, _ => None
  end.

Fixpoint shape_of (t : tensor) : option (list Z) :=
  match t with
  | Call l ins => layer_shape l (map shape_of ins)
  end.

(* ================================================================= *)
(** ** Values *)

(** The real numbers, under a name that [R], the number of stages, does
    not hide. *)
Abbreviation real := Rdefinitions.R.

Definition sigmoid (x : real) : real := (/ (1 + exp (- x)))%R.

(** [swish(x)]: [tf.nn.sigmoid(x) * x], element by element. *)
Definition swish (x : real) : real := (sigmoid x * x)%R.

Definition apply_activation (a : activation) : real -> real :=
  match a with
  | act_swish => swish
  | act_sigmoid => sigmoid
  end.

(** The elements of a tensor, for any numeric behaviour [weights] of
    the layers that carry trained parameters or reshape, pool or merge
    their inputs, and any values [feed] given to the input layer.  An
    [Activation] layer applies its function to every element. *)
Section Values.

Variable weights : layer -> list (list real) -> list real.
Variable feed : list real.

Fixpoint eval (t : tensor) : list real :=
  match t with
  | Call (Input _) _ => feed
  | Call (Activation a _) [x] => map (apply_activation a) (eval x)
  | Call l ins => weights l (map eval ins)
  end.

End Values.

(* ================================================================= *)
(** ** Doubles that hold an integer times a power of two *)

(** The double [2.0], as [float(2)] builds it. *)
Definition two : spec_float := S754_finite false 4503599627370496 (-51).

(** A finite double after [k] exact halvings: the exponent is lowered. *)
Definition halved (x : spec_float) (k : Z) : spec_float :=
  match x with
  | S754_finite s m e => S754_finite s m (e - k)
  | _ => x
  end.

(** The integer [int(x)] is, where it does not raise. *)
Definition truncated (x : spec_float) : Z :=
  match Py.int_of_float x with
  | Ok n => n
  | Raise _ => 0
  end.

(** The 53-digit mantissa of a positive [L] below [2^53]. *)
Definition mantissa53 (L : Z) : Z := L * 2 ^ (53 - Zdigits2 L).

(** The normal double whose value is [L * 2^j]. *)
Definition dyadic (L j : Z) : spec_float :=
  S754_finite false (Z.to_pos (mantissa53 L)) (j - (53 - Zdigits2 L)).

(* ================================================================= *)
(** ** One residual stage, and a run of stages, as functions of the
       filter counts *)

(** What one iteration of the generator's loop builds on [x] when
    [int(filters)] is [f]. *)
Definition upsample_stage (r : nat) (f : Z) (x : tensor) : tensor :=
  let index := Some (Z.of_nat r + 1) in
  let pre := deconv_block x f "deconv_block" index in
  Call (Add ("add_" ++ Py.str (Z.of_nat r + 1)))
       [pre; conv_block pre f "conv_1by1" index false true false].

(** Iterations [a .. a + n - 1], iteration [r] with [g r] filters. *)
Fixpoint upsample_chain (g : nat -> Z) (a n : nat) (x : tensor) : tensor :=
  match n with
  | O => x
  | S n' => upsample_chain g (S a) n' (upsample_stage a (g a) x)
  end.

(** What one iteration of the discriminator's loop builds on [x]. *)
Definition downsample_stage (r : nat) (f : Z) (x : tensor) : tensor :=
  let index := Some (Z.of_nat r + 1) in
  let pre := conv_block x f "conv_block" index true false false in
  Call (Add ("add_" ++ Py.str (Z.of_nat r + 1)))
       [pre; conv_block pre f "conv_1by1" index false true false].

(** [n] iterations from index [a] on, with [f] filters in the first of
    them and twice as many in each next one. *)
Fixpoint downsample_chain (a n : nat) (f : Z) (x : tensor) : tensor :=
  match n with
  | O => x
  | S n' => downsample_chain (S a) n' (f * 2) (downsample_stage a f x)
  end.

(** The output tensor [generator] builds when its first division gives
    the double [x0] and the later ones only lower the exponent. *)
Definition generator_output (vector_dim : Z) (R : nat) (last_channels c : Z)
    (x0 : spec_float) : tensor :=
  let x := Call (Reshape [1; 1; vector_dim]) [input_layer [vector_dim]] in
  let x := conv_block x (last_channels * 2 ^ Z.of_nat R) "stem" None false true false in
  let x := upsample_chain (fun r => truncated (halved x0 (Z.of_nat r))) 0 R x in
  conv_block x c "prediction_conv" None false false true.

(** The output tensor [discriminator] builds. *)
Definition discriminator_output (vector_dim : Z) (R : nat) (first_channels c : Z) : tensor :=
  let input_dim := 2 ^ Z.of_nat R in
  let x := input_layer [input_dim; input_dim; c] in
  let x := conv_block x (first_channels * 2) "stem" None false false false in
  let x := downsample_chain 0 R (first_channels * 2) x in
  let x := Call (GlobalAveragePooling2D "prediction_GAP") [x] in
  Call (Dense (vector_dim + 1) None "prediction") [x].

(** The integers binary64 holds: a 53-bit integer times a power of
    two. *)
Definition binary64_exact (n : Z) : Prop :=
  exists m e : Z, 1 <= m < 2 ^ 53 /\ 0 <= e /\ n = m * 2 ^ e.

(** Configurations of the generator: positive sizes, and a largest
    filter count within the range of binary64, so that no division
    raises. *)
Definition generator_config (vector_dim : Z) (R : nat) (last_channels c : Z) : Prop :=
  1 <= vector_dim /\ 1 <= c /\ 1 <= last_channels
  /\ last_channels * 2 ^ Z.of_nat R < 2 ^ 1024.

(** Configurations of the discriminator: positive sizes. *)
Definition discriminator_config (vector_dim : Z) (R : nat) (first_channels c : Z) : Prop :=
  0 <= vector_dim /\ 1 <= c /\ 1 <= first_channels.

(** The discriminator's stage with the one-by-one block in parallel
    with the stride-2 block, both called on [x]: the wiring the
    specification describes, for comparison with [downsample_stage]. *)
Definition parallel_downsample_stage (r : nat) (f : Z) (x : tensor) : tensor :=
  let index := Some (Z.of_nat r + 1) in
  let pre := conv_block x f "conv_block" index true false false in
  Call (Add ("add_" ++ Py.str (Z.of_nat r + 1)))
       [pre; conv_block x f "conv_1by1" index false true false].

(** A residual stage of the discriminator as the graph has it, read
    off the two tensors [(main, proj)] its [Add] is called on: [main]
    is a stride-2 block with kernel 3, and [proj] is a one-by-one block
    with the same filter count, applied to [main]. *)
Definition downsample_residual (ab : tensor * tensor) : Prop :=
  exists (f : Z) (n1 n2 : string) (x : tensor),
    block_parts (fst ab) = Some (Conv2D f 3 2 n1, x)
    /\ block_parts (snd ab) = Some (Conv2D f 1 1 n2, fst ab).

(** The indices [1 .. R] of the stages. *)
Definition stage_indices (R : nat) : list Z := map Z.of_nat (seq 1 R).

(* ================================================================= *)
(** ** Builders from parsed options *)

Module Options.

(** The attributes of the [argparse] namespace the two wrappers read. *)
Record t : Type := { vector_dim : Z; r : nat; num_filters : Z; c : Z }.

End Options.

(** [make_generator_with_opt(opt)] *)
Definition make_generator_with_opt (opt : Options.t) : result model :=
  G <- generator (Options.vector_dim opt) (Options.r opt)
                 (Options.num_filters opt) (Options.c opt) ;;
  Ok G.

(** [make_discriminator_with_opt(opt)] *)
Definition make_discriminator_with_opt (opt : Options.t) : result model :=
  D <- discriminator (Options.vector_dim opt) (Options.r opt)
                     (Options.num_filters opt) (Options.c opt) ;;
  Ok D.

(* ================================================================= *)
(** ** The nodes of a graph and their names *)

(** The [name=] argument a layer is built with; [Input] and [Reshape]
    are given none. *)
Definition layer_name (l : layer) : option string :=
  match l with
  | Input _ | Reshape _ => None
  | Conv2D _ _ _ n | Conv2DTranspose _ n | BatchNormalization n
  | Activation _ n | Add n | GlobalAveragePooling2D n | Dense _ _ n => Some n
  end.

Definition tensor_name (t : tensor) : option string :=
  match t with
  | Call l _ => layer_name l
  end.

(** Every tensor the graph of [t] holds, [t] included; one that is
    used twice is listed twice. *)
Fixpoint nodes (t : tensor) : list tensor :=
  match t with
  | Call l ins => t :: flat_map nodes ins
  end.

(** No two different nodes carry the same layer name. *)
Definition unique_names (t : tensor) : Prop :=
  forall u v : tensor, In u (nodes t) -> In v (nodes t) ->
  forall n : string, tensor_name u = Some n -> tensor_name v = Some n -> u = v.

(** Every name in the graph of [t] satisfies [P]. *)
Definition names_in (P : string -> Prop) (t : tensor) : Prop :=
  forall u : tensor, In u (nodes t) ->
  forall n : string, tensor_name u = Some n -> P n.

(** A graph whose names are unique and all satisfy [P]. *)
Definition tidy (P : string -> Prop) (t : tensor) : Prop :=
  unique_names t /\ names_in P t.

(** The block names of the residual stages. *)
Definition stage_blocks : list string := ["deconv_block"; "conv_block"; "conv_1by1"].

(** The names the stem and the stages [1 .. k] are built with. *)
Inductive known_name (k : Z) : string -> Prop :=
| known_stem (l : string) :
    sub_layer_name l = true -> known_name k (make_name "stem" l None)
| known_stage (b l : string) (i : Z) :
    In b stage_blocks -> sub_layer_name l = true -> 1 <= i <= k ->
    known_name k (make_name b l (Some i))
| known_add (i : Z) :
    1 <= i <= k -> known_name k ("add_" ++ Py.str i).

(** The activation a node applies, when it is an [Activation] layer. *)
Definition node_activation (t : tensor) : option activation :=
  match t with
  | Call (Activation a _) _ => Some a
  | _ => None
  end.

(** No node of the graph applies the sigmoid activation. *)
Definition sigmoid_free (t : tensor) : Prop :=
  forall u : tensor, In u (nodes t) -> node_activation u <> Some act_sigmoid.

(** A residual stage of the generator as the graph has it, read off the
    two tensors [(main, proj)] its [Add] is called on: [main] is a
    transposed-convolution block and [proj] is a one-by-one block with
    the same filter count, applied to [main]. *)
Definition upsample_residual (ab : tensor * tensor) : Prop :=
  exists (f : Z) (n1 n2 : string) (x : tensor),
    block_parts (fst ab) = Some (Conv2DTranspose f n1, x)
    /\ block_parts (snd ab) = Some (Conv2D f 1 1 n2, fst ab).

(* ================================================================= *)
(** * Strings and layer names *)

Section Names.

Lemma append_assoc (a b c : string) : (a ++ b) ++ c = a ++ (b ++ c).
Proof. induction a as [|x a IH]; simpl; [reflexivity | now rewrite IH]. Qed.

Lemma append_length (a b : string) :
  String.length (a ++ b) = (String.length a + String.length b)%nat.
Proof. induction a as [|x a IH]; simpl; [reflexivity | now rewrite IH]. Qed.

Lemma append_inj_r (a b c : string) : a ++ b = a ++ c -> b = c.
Proof.
  induction a as [|x a IH]; simpl; intros E; [assumption|].
  injection E as E. auto.
Qed.

Lemma all_chars_append (P : ascii -> bool) (a b : string) :
  all_chars P (a ++ b) = all_chars P a && all_chars P b.
Proof.
  induction a as [|x a IH]; simpl; [reflexivity|].
  now rewrite IH, andb_assoc.
Qed.

Lemma all_chars_weaken (P Q : ascii -> bool) (s : string) :
  (forall c, P c = true -> Q c = true) ->
  all_chars P s = true -> all_chars Q s = true.
Proof.
  intros HPQ. induction s as [|x s IH]; simpl; [reflexivity|].
  rewrite !andb_true_iff. intros [Hx Hs]. auto.
Qed.

(** A string with an underscore in it is not underscore-free. *)
Lemma no_underscore_append (a b : string) :
  no_underscore (a ++ "_" ++ b) = false.
Proof.
  unfold no_underscore. rewrite all_chars_append. simpl.
  apply andb_false_r.
Qed.

(** Splitting at the last underscore is unambiguous. *)
Lemma split_last_underscore (s1 : string) :
  forall s2 t1 t2 : string,
  no_underscore t1 = true -> no_underscore t2 = true ->
  s1 ++ "_" ++ t1 = s2 ++ "_" ++ t2 -> s1 = s2 /\ t1 = t2.
Proof.
  induction s1 as [|c s1 IH]; intros [|c' s2] t1 t2 H1 H2 E; simpl in E.
  - injection E as E. auto.
  - injection E as _ E. subst t1.
    change (String "_" t2) with ("_" ++ t2) in H1.
    rewrite no_underscore_append in H1. discriminate.
  - injection E as _ E. subst t2.
    change (String "_" t1) with ("_" ++ t1) in H2.
    rewrite no_underscore_append in H2. discriminate.
  - injection E as -> E. destruct (IH s2 t1 t2 H1 H2 E) as [-> ->]. auto.
Qed.

Lemma string_of_uint_numeric (d : Decimal.uint) :
  all_chars numeric_char (NilEmpty.string_of_uint d) = true.
Proof. induction d; simpl; auto. Qed.

Lemma string_of_uint_nonempty (d : Decimal.uint) :
  d <> Decimal.Nil -> NilEmpty.string_of_uint d <> "".
Proof. destruct d; simpl; congruence. Qed.

Lemma to_int_cases (n : Z) :
  exists d, d <> Decimal.Nil /\
            (Z.to_int n = Decimal.Pos d \/ Z.to_int n = Decimal.Neg d).
Proof.
  destruct n as [|p|p]; simpl.
  - exists Decimal.zero. split; [discriminate | auto].
  - exists (Pos.to_uint p). split; [apply DecimalPos.Unsigned.to_uint_nonnil | auto].
  - exists (Pos.to_uint p). split; [apply DecimalPos.Unsigned.to_uint_nonnil | auto].
Qed.

Lemma str_numeric (n : Z) : all_chars numeric_char (Py.str n) = true.
Proof.
  unfold Py.str. destruct (to_int_cases n) as (d & Hd & [-> | ->]); simpl.
  - destruct d; try congruence; apply string_of_uint_numeric.
  - destruct d; try congruence; apply string_of_uint_numeric.
Qed.

Lemma str_starts_numeric (n : Z) : starts_numeric (Py.str n) = true.
Proof.
  unfold Py.str. destruct (to_int_cases n) as (d & Hd & [-> | ->]); simpl.
  - destruct d; try congruence; reflexivity.
  - reflexivity.
Qed.

Lemma str_no_underscore (n : Z) : no_underscore (Py.str n) = true.
Proof.
  apply (all_chars_weaken numeric_char); [|apply str_numeric].
  intros c. destruct c as [[|] [|] [|] [|] [|] [|] [|] [|]]; simpl; congruence.
Qed.

Lemma str_inj (i j : Z) : Py.str i = Py.str j -> i = j.
Proof.
  unfold Py.str. intros E.
  apply DecimalZ.to_int_inj.
  assert (Hi : forall n, NilZero.int_of_string (NilZero.string_of_int (Z.to_int n))
                         = Some (Z.to_int n)).
  { intros n. apply NilZero.isi;
      destruct (to_int_cases n) as (d & Hd & [-> | ->]); congruence. }
  pose proof (Hi i) as Ei. rewrite E, Hi in Ei. congruence.
Qed.

End Names.

(* ================================================================= *)
(** * Binary64 arithmetic on the values the generator meets *)

Section Binary64.

Local Abbreviation fexp := (SpecFloat.fexp Py.prec Py.emax).

Lemma digits2_pos_size (p : positive) : digits2_pos p = Pos.size p.
Proof. induction p; simpl; congruence. Qed.

Lemma Zdigits2_log2 (n : Z) : 0 < n -> Zdigits2 n = Z.log2 n + 1.
Proof.
  destruct n as [|p|p]; try lia. intros _.
  destruct p; simpl; rewrite ?digits2_pos_size; lia.
Qed.

Lemma Zdigits2_bounds (n : Z) :
  0 < n -> 2 ^ (Zdigits2 n - 1) <= n < 2 ^ Zdigits2 n.
Proof.
  intros Hn. rewrite (Zdigits2_log2 n Hn).
  replace (Z.log2 n + 1 - 1) with (Z.log2 n) by lia.
  apply (Z.log2_spec n Hn).
Qed.

Lemma Zdigits2_mul_pow2 (n k : Z) :
  0 < n -> 0 <= k -> Zdigits2 (n * 2 ^ k) = Zdigits2 n + k.
Proof.
  intros Hn Hk.
  assert (0 < 2 ^ k) by (apply Z.pow_pos_nonneg; lia).
  rewrite !Zdigits2_log2 by nia.
  rewrite Z.log2_mul_pow2 by lia. lia.
Qed.

Lemma Zdigits2_le (n d : Z) : 0 < n -> n < 2 ^ d -> Zdigits2 n <= d.
Proof.
  intros Hn Hlt.
  destruct (Z.le_gt_cases (Zdigits2 n) d) as [|Hgt]; [assumption|exfalso].
  pose proof (Zdigits2_bounds n Hn) as [Hlo _].
  assert (0 <= d) by (destruct d; try lia; simpl in Hlt; lia).
  assert (2 ^ d <= 2 ^ (Zdigits2 n - 1)) by (apply Z.pow_le_mono_r; lia).
  lia.
Qed.

Lemma Zdigits2_pos (n : Z) : 0 < n -> 0 < Zdigits2 n.
Proof. intros Hn. rewrite Zdigits2_log2 by assumption. pose proof (Z.log2_nonneg n). lia. Qed.

Lemma div_eucl_pair (a b : Z) : Z.div_eucl a b = (a / b, a mod b).
Proof. unfold Z.div, Z.modulo. destruct (Z.div_eucl a b); reflexivity. Qed.

(** Shifting an exact record right by [n] places when the mantissa is a
    multiple of [2 ^ n] loses nothing. *)
Lemma shr_1_double (m : Z) :
  0 < m ->
  shr_1 (Build_shr_record (2 * m) false false) = Build_shr_record m false false.
Proof. destruct m; try lia; intros _; reflexivity. Qed.

Lemma iter_shr_1_exact (n : positive) :
  forall m : Z, 0 < m ->
  SpecFloat.iter_pos shr_1 n (Build_shr_record (m * 2 ^ Zpos n) false false)
  = Build_shr_record m false false.
Proof.
  induction n as [n IH|n IH|]; intros m Hm.
  - assert (Hp : 0 < 2 ^ Zpos n) by (apply Z.pow_pos_nonneg; lia).
    replace (m * 2 ^ Zpos n~1) with (2 * ((m * 2 ^ Zpos n) * 2 ^ Zpos n)).
    + cbn [SpecFloat.iter_pos].
      rewrite shr_1_double by nia. rewrite IH by nia. apply IH; assumption.
    + assert (E : Zpos n~1 = 1 + Zpos n + Zpos n) by lia.
      rewrite E, !Z.pow_add_r by lia. change (2 ^ 1) with 2. ring.
  - assert (Hp : 0 < 2 ^ Zpos n) by (apply Z.pow_pos_nonneg; lia).
    replace (m * 2 ^ Zpos n~0) with ((m * 2 ^ Zpos n) * 2 ^ Zpos n).
    + cbn [SpecFloat.iter_pos]. rewrite IH by nia. apply IH; assumption.
    + assert (E : Zpos n~0 = Zpos n + Zpos n) by lia.
      rewrite E, Z.pow_add_r by lia. ring.
  - change (2 ^ 1) with 2. rewrite Z.mul_comm. cbn [SpecFloat.iter_pos].
    apply shr_1_double; assumption.
Qed.

Lemma float_of_int_2 : Py.float_of_int 2 = Ok two.
Proof. reflexivity. Qed.

Lemma fexp_eq (e : Z) : fexp e = Z.max (e - 53) (-1074).
Proof. reflexivity. Qed.

Lemma new_location_zero (b : Z) : new_location b 0 = loc_Exact.
Proof. unfold new_location. destruct (Z.even b); reflexivity. Qed.

(** Rounding an exact value [m * 2^n * 2^e] whose mantissa [m] already
    has 53 digits: nothing is lost, the [n] trailing zeros are dropped. *)
Lemma binary_round_aux_exact (m n e : Z) :
  0 < m -> Zdigits2 m = 53 -> 0 <= n -> -1074 <= e + n <= 971 ->
  binary_round_aux Py.prec Py.emax false (m * 2 ^ n) e loc_Exact
  = S754_finite false (Z.to_pos m) (e + n).
Proof.
  intros Hm Hd Hn He.
  unfold binary_round_aux, shr_fexp.
  rewrite Zdigits2_mul_pow2, Hd, fexp_eq by lia.
  replace (Z.max (53 + n + e - 53) (-1074) - e) with n by lia.
  assert (Hshr : shr (shr_record_of_loc (m * 2 ^ n) loc_Exact) e n
                 = (Build_shr_record m false false, e + n)).
  { unfold shr, shr_record_of_loc. destruct n as [|p|p]; try lia.
    - rewrite Z.mul_1_r, Z.add_0_r. reflexivity.
    - rewrite iter_shr_1_exact by assumption. reflexivity. }
  rewrite Hshr. cbn [shr_m loc_of_shr_record round_nearest_even].
  rewrite Hd, fexp_eq.
  replace (Z.max (53 + (e + n) - 53) (-1074) - (e + n)) with 0 by lia.
  cbn [shr shr_record_of_loc shr_m].
  destruct m as [|p|p]; try lia.
  replace (e + n <=? Py.emax - Py.prec) with true
    by (symmetry; apply Z.leb_le; unfold Py.emax, Py.prec; lia).
  reflexivity.
Qed.

(** The division core on a divisor [2^k]. *)
Lemma SFdiv_core_binary_pow2_gen (a e1 k e2 : Z) :
  0 < a -> 0 <= k ->
  let e' := Z.min (fexp (Zdigits2 a + e1 - (k + 1 + e2))) (e1 - e2) in
  let s := e1 - e2 - e' in
  SFdiv_core_binary Py.prec Py.emax a e1 (2 ^ k) e2
  = (a * 2 ^ s / 2 ^ k, e', new_location (2 ^ k) ((a * 2 ^ s) mod 2 ^ k)).
Proof.
  intros Ha Hk e' s.
  unfold SFdiv_core_binary.
  assert (Hdk : Zdigits2 (2 ^ k) = k + 1).
  { replace (2 ^ k) with (1 * 2 ^ k) by lia.
    rewrite Zdigits2_mul_pow2 by lia. cbn [Zdigits2 digits2_pos]. lia. }
  rewrite Hdk. fold e'. fold s.
  assert (Hs : 0 <= s) by (unfold s, e'; lia).
  assert (Hm' : match s with
                | 0 => a
                | Z.pos _ => Z.shiftl a s
                | Z.neg _ => 0
                end = a * 2 ^ s).
  { destruct s as [|p|p]; try lia.
    rewrite Z.shiftl_mul_pow2 by lia. reflexivity. }
  rewrite Hm', div_eucl_pair. reflexivity.
Qed.

(** When the aligned dividend is a multiple of [2^k], the quotient is exact. *)
Lemma SFdiv_core_binary_pow2 (a e1 k e2 : Z) :
  0 < a -> 0 <= k ->
  let e' := Z.min (fexp (Zdigits2 a + e1 - (k + 1 + e2))) (e1 - e2) in
  let s := e1 - e2 - e' in
  (a * 2 ^ s) mod 2 ^ k = 0 ->
  SFdiv_core_binary Py.prec Py.emax a e1 (2 ^ k) e2
  = (a * 2 ^ s / 2 ^ k, e', loc_Exact).
Proof.
  intros Ha Hk e' s Hmod.
  rewrite SFdiv_core_binary_pow2_gen by assumption.
  fold e'. fold s. rewrite Hmod, new_location_zero. reflexivity.
Qed.

(** Halving a normal double whose exponent is not among the two
    smallest only lowers the exponent. *)
Lemma SFdiv_two (m : positive) (e : Z) :
  digits2_pos m = 53%positive ->
  -1072 <= e <= 971 ->
  SFdiv Py.prec Py.emax (S754_finite false m e) two = S754_finite false m (e - 1).
Proof.
  intros Hd He.
  unfold two, SFdiv. cbn [xorb].
  change (Z.pos 4503599627370496) with (2 ^ 52).
  rewrite SFdiv_core_binary_pow2; cbn [Zdigits2]; rewrite ?Hd, ?fexp_eq; try lia.
  - replace (Z.min (Z.max (53 + e - (52 + 1 + -51) - 53) (-1074)) (e - -51))
      with (e - 2) by lia.
    replace (e - -51 - (e - 2)) with 53 by lia.
    replace (Z.pos m * 2 ^ 53 / 2 ^ 52) with (Z.pos m * 2 ^ 1).
    + rewrite binary_round_aux_exact; cbn [Zdigits2]; rewrite ?Hd; try lia.
      f_equal. lia.
    + change (2 ^ 53) with (2 ^ 1 * 2 ^ 52).
      rewrite Z.mul_assoc, Z.div_mul by lia. reflexivity.
  - replace (Z.min (Z.max (53 + e - (52 + 1 + -51) - 53) (-1074)) (e - -51))
      with (e - 2) by lia.
    replace (e - -51 - (e - 2)) with 53 by lia.
    change (2 ^ 53) with (2 ^ 1 * 2 ^ 52).
    rewrite Z.mul_assoc. apply Z.mod_mul. lia.
Qed.

Lemma mantissa53_digits (L : Z) :
  1 <= L < 2 ^ 53 -> 0 < mantissa53 L /\ Zdigits2 (mantissa53 L) = 53.
Proof.
  intros HL. unfold mantissa53.
  pose proof (Zdigits2_le L 53 ltac:(lia) ltac:(lia)) as Hd.
  assert (0 < 2 ^ (53 - Zdigits2 L)) by (apply Z.pow_pos_nonneg; lia).
  split; [nia|]. rewrite Zdigits2_mul_pow2 by lia. lia.
Qed.

(** [x / 2] on a normal double [x] and the [int] 2. *)
Lemma float_truediv_normal (m : positive) (e : Z) :
  digits2_pos m = 53%positive -> -1072 <= e <= 971 ->
  Py.truediv (Py.Float (S754_finite false m e)) (Py.Int 2)
  = Ok (Py.Float (S754_finite false m (e - 1))).
Proof.
  intros Hm He.
  unfold Py.truediv. rewrite float_of_int_2. cbn [bind].
  unfold Py.float_truediv. cbn [two Py.is_zero bind]. fold two.
  rewrite SFdiv_two by assumption. reflexivity.
Qed.

Lemma dyadic_normal (L : Z) :
  1 <= L < 2 ^ 53 ->
  digits2_pos (Z.to_pos (mantissa53 L)) = 53%positive /\ 1 <= Zdigits2 L <= 53.
Proof.
  intros HL.
  pose proof (Zdigits2_le L 53 ltac:(lia) ltac:(lia)) as Hd.
  pose proof (Zdigits2_pos L ltac:(lia)) as Hd0.
  destruct (mantissa53_digits L HL) as [Hm Hmd].
  split; [|lia].
  destruct (mantissa53 L) as [|p|p]; try lia.
  cbn [Zdigits2] in Hmd. cbn [Z.to_pos]. congruence.
Qed.

(** The first division of the generator, on two [int]s. *)
Lemma int_truediv_dyadic (L R : Z) :
  1 <= L < 2 ^ 53 -> 0 <= R -> R + Zdigits2 L <= 1025 ->
  Py.int_truediv (L * 2 ^ R) 2 = Ok (dyadic L (R - 1)).
Proof.
  intros HL HR Hhi.
  pose proof (Zdigits2_le L 53 ltac:(lia) ltac:(lia)) as Hd.
  pose proof (Zdigits2_pos L ltac:(lia)) as Hd0.
  destruct (mantissa53_digits L HL) as [Hm Hmd].
  assert (HR2 : 0 < 2 ^ R) by (apply Z.pow_pos_nonneg; lia).
  assert (HA : 0 < L * 2 ^ R) by nia.
  unfold Py.int_truediv. cbn [Z.eqb].
  remember (L * 2 ^ R) as A eqn:EA.
  destruct A as [|a|a]; try lia.
  cbn [Py.raw_of_Z]. unfold SFdiv. cbn [xorb].
  change (Z.pos 2) with (2 ^ 1).
  assert (Hdig : Zdigits2 (Z.pos a) = Zdigits2 L + R)
    by (rewrite EA; apply Zdigits2_mul_pow2; lia).
  set (s := 0 - 0 - Z.min (fexp (Zdigits2 (Z.pos a) + 0 - (1 + 1 + 0))) (0 - 0)).
  assert (Hs : s = Z.max (55 - Zdigits2 L - R) 0)
    by (unfold s; rewrite Hdig, fexp_eq; lia).
  set (n := R + s + Zdigits2 L - 54).
  assert (Hq : Z.pos a * 2 ^ s = mantissa53 L * 2 ^ n * 2 ^ 1).
  { rewrite EA. unfold mantissa53.
    rewrite <- !Z.mul_assoc, <- !Z.pow_add_r by lia.
    do 2 f_equal. lia. }
  rewrite SFdiv_core_binary_pow2; try lia.
  - fold s. rewrite Hq, Z.div_mul by lia.
    rewrite binary_round_aux_exact; rewrite ?Hdig, ?fexp_eq;
      try lia; try (unfold n; rewrite Hs; lia).
    unfold dyadic, n. rewrite Hs. do 2 f_equal. lia.
  - fold s. rewrite Hq. apply Z.mod_mul. lia.
Qed.

(** [int()] of a [dyadic] with a non-negative power gives the integer back. *)
Lemma int_of_float_dyadic (L j : Z) :
  1 <= L < 2 ^ 53 -> 0 <= j ->
  Py.int_of_float (dyadic L j) = Ok (L * 2 ^ j).
Proof.
  intros HL Hj.
  pose proof (Zdigits2_le L 53 ltac:(lia) ltac:(lia)) as Hd.
  pose proof (Zdigits2_pos L ltac:(lia)) as Hd0.
  destruct (mantissa53_digits L HL) as [Hm Hmd].
  unfold Py.int_of_float, dyadic. cbn [cond_Zopp]. f_equal.
  rewrite Z2Pos.id by assumption. unfold mantissa53.
  destruct (Z.leb_spec 0 (j - (53 - Zdigits2 L))) as [He|He].
  - rewrite <- Z.mul_assoc, <- Z.pow_add_r by lia. do 2 f_equal. lia.
  - replace (53 - Zdigits2 L) with (j + - (j - (53 - Zdigits2 L))) at 1 by lia.
    rewrite Z.pow_add_r, Z.mul_assoc by lia.
    apply Z.div_mul.
    apply Z.pow_nonzero; lia.
Qed.

(** *** Rounding a long mantissa *)

Lemma Zdigits2_unique (n d : Z) :
  2 ^ (d - 1) <= n < 2 ^ d -> 0 < d -> Zdigits2 n = d.
Proof.
  intros Hn Hd.
  assert (0 < 2 ^ (d - 1)) by (apply Z.pow_pos_nonneg; lia).
  rewrite Zdigits2_log2 by lia.
  rewrite (Z.log2_unique n (d - 1)); try lia.
  replace (Z.succ (d - 1)) with d by lia. assumption.
Qed.

Lemma Zdigits2_div_pow2 (q n : Z) :
  0 < q -> 0 <= n < Zdigits2 q ->
  Zdigits2 (q / 2 ^ n) = Zdigits2 q - n.
Proof.
  intros Hq Hn.
  pose proof (Zdigits2_bounds q Hq) as [Hlo Hhi].
  assert (Hp : 0 < 2 ^ n) by (apply Z.pow_pos_nonneg; lia).
  apply Zdigits2_unique; [|lia]. split.
  - apply Z.div_le_lower_bound; [assumption|].
    rewrite <- Z.pow_add_r by lia.
    replace (n + (Zdigits2 q - n - 1)) with (Zdigits2 q - 1) by lia. assumption.
  - apply Z.div_lt_upper_bound; [assumption|].
    rewrite <- Z.pow_add_r by lia.
    replace (n + (Zdigits2 q - n)) with (Zdigits2 q) by lia. assumption.
Qed.

Lemma shr_1_m (rc : shr_record) :
  0 <= shr_m rc -> shr_m (shr_1 rc) = shr_m rc / 2.
Proof.
  destruct rc as [m r t]. cbn [shr_m]. intros Hm.
  destruct m as [|p|p]; try lia; [reflexivity|].
  destruct p as [p|p|]; cbn [shr_1 shr_m].
  - rewrite Pos2Z.inj_xI. apply Z.div_unique with (r := 1); lia.
  - rewrite Pos2Z.inj_xO. apply Z.div_unique with (r := 0); lia.
  - reflexivity.
Qed.

Lemma iter_shr_1_m (n : positive) :
  forall rc : shr_record, 0 <= shr_m rc ->
  shr_m (SpecFloat.iter_pos shr_1 n rc) = shr_m rc / 2 ^ Zpos n.
Proof.
  induction n as [n IH|n IH|]; intros rc Hrc; cbn [SpecFloat.iter_pos].
  - assert (Hp : 0 < 2 ^ Zpos n) by (apply Z.pow_pos_nonneg; lia).
    assert (H1 : 0 <= shr_m (shr_1 rc))
      by (rewrite shr_1_m by assumption; apply Z.div_pos; lia).
    assert (H2 : 0 <= shr_m (SpecFloat.iter_pos shr_1 n (shr_1 rc)))
      by (rewrite IH by assumption; apply Z.div_pos; lia).
    rewrite (IH _ H2), (IH _ H1), shr_1_m by assumption.
    rewrite !Z.div_div by lia. f_equal.
    assert (E : Zpos n~1 = 1 + Zpos n + Zpos n) by lia.
    rewrite E, !Z.pow_add_r by lia. change (2 ^ 1) with 2. ring.
  - assert (Hp : 0 < 2 ^ Zpos n) by (apply Z.pow_pos_nonneg; lia).
    assert (H1 : 0 <= shr_m (SpecFloat.iter_pos shr_1 n rc))
      by (rewrite IH by assumption; apply Z.div_pos; lia).
    rewrite (IH _ H1), (IH _ Hrc).
    rewrite Z.div_div by lia. f_equal.
    assert (E : Zpos n~0 = Zpos n + Zpos n) by lia.
    rewrite E, Z.pow_add_r by lia. reflexivity.
  - change (2 ^ 1) with 2. apply shr_1_m; assumption.
Qed.

Lemma round_nearest_even_bounds (m : Z) (l : location) :
  m <= round_nearest_even m l <= m + 1.
Proof.
  unfold round_nearest_even.
  destruct l as [|[ | | ]]; try lia. destruct (Z.even m); lia.
Qed.

(** Rounding a positive mantissa of at least 54 digits, in the normal
    range: the result is a normal double with a 53-digit mantissa, and
    its exponent is that of the truncation or one more. *)
Lemma binary_round_aux_normal (q e : Z) (l : location) :
  0 < q ->
  54 <= Zdigits2 q -> -1074 <= Zdigits2 q + e - 53 -> Zdigits2 q + e <= 1023 ->
  exists (m : positive) (e' : Z),
    binary_round_aux Py.prec Py.emax false q e l = S754_finite false m e'
    /\ digits2_pos m = 53%positive
    /\ e + Zdigits2 q - 53 <= e' <= e + Zdigits2 q - 52.
Proof.
  intros Hq Hd Hlo Hhi.
  unfold binary_round_aux, shr_fexp. rewrite fexp_eq.
  replace (Z.max (Zdigits2 q + e - 53) (-1074) - e) with (Zdigits2 q - 53) by lia.
  remember (Zdigits2 q - 53) as n eqn:En.
  destruct n as [|p|p]; try lia.
  cbn [shr].
  set (rc := SpecFloat.iter_pos shr_1 p (shr_record_of_loc q l)).
  assert (Hrc0 : shr_m (shr_record_of_loc q l) = q)
    by (destruct l as [|[ | | ]]; reflexivity).
  assert (Hm1 : shr_m rc = q / 2 ^ Zpos p)
    by (unfold rc; rewrite iter_shr_1_m, Hrc0 by (rewrite Hrc0; lia); reflexivity).
  assert (Hd1 : Zdigits2 (shr_m rc) = 53)
    by (rewrite Hm1, Zdigits2_div_pow2 by lia; lia).
  assert (Hpos1 : 0 < shr_m rc).
  { rewrite Hm1. apply Z.div_str_pos. split; [apply Z.pow_pos_nonneg; lia|].
    pose proof (Zdigits2_bounds q Hq) as [Hql _].
    apply Z.le_trans with (2 ^ (Zdigits2 q - 1)); [|assumption].
    apply Z.pow_le_mono_r; lia. }
  pose proof (Zdigits2_bounds _ Hpos1) as Hb1. rewrite Hd1 in Hb1.
  pose proof (round_nearest_even_bounds (shr_m rc) (loc_of_shr_record rc)) as Hr.
  set (m2 := round_nearest_even (shr_m rc) (loc_of_shr_record rc)) in *.
  change (2 ^ (53 - 1)) with 4503599627370496 in Hb1.
  change (2 ^ 53) with 9007199254740992 in Hb1.
  destruct (Z.eq_dec m2 9007199254740992) as [E2|N2].
  - rewrite E2. cbn [Zdigits2 digits2_pos Pos.succ]. rewrite fexp_eq.
    replace (Z.max (54 + (e + Z.pos p) - 53) (-1074) - (e + Z.pos p)) with 1 by lia.
    cbn [shr shr_record_of_loc SpecFloat.iter_pos shr_1 shr_m].
    replace (e + Z.pos p + 1 <=? Py.emax - Py.prec) with true
      by (symmetry; apply Z.leb_le; unfold Py.emax, Py.prec; lia).
    do 2 eexists. split; [reflexivity|]. split; [reflexivity | lia].
  - assert (Hd2 : Zdigits2 m2 = 53).
    { apply Zdigits2_unique; [|lia].
      change (2 ^ (53 - 1)) with 4503599627370496.
      change (2 ^ 53) with 9007199254740992. lia. }
    rewrite Hd2, fexp_eq.
    replace (Z.max (53 + (e + Z.pos p) - 53) (-1074) - (e + Z.pos p)) with 0 by lia.
    cbn [shr shr_record_of_loc shr_m].
    destruct m2 as [|p2|p2]; try lia.
    replace (e + Z.pos p <=? Py.emax - Py.prec) with true
      by (symmetry; apply Z.leb_le; unfold Py.emax, Py.prec; lia).
    do 2 eexists. split; [reflexivity|].
    split; [cbn [Zdigits2] in Hd2; congruence | lia].
Qed.

(** The first division of the generator on an [int] of 54 digits or
    more: one rounding, to a normal double. *)
Lemma int_truediv_rounded (a : Z) :
  0 < a -> 54 <= Zdigits2 a <= 1024 ->
  exists (m : positive) (e : Z),
    Py.int_truediv a 2 = Ok (S754_finite false m e)
    /\ digits2_pos m = 53%positive
    /\ Zdigits2 a - 54 <= e <= Zdigits2 a - 53.
Proof.
  intros Ha Hd.
  unfold Py.int_truediv. cbn [Z.eqb].
  destruct a as [|pa|pa]; try lia.
  cbn [Py.raw_of_Z]. unfold SFdiv. cbn [xorb].
  change (Z.pos 2) with (2 ^ 1).
  rewrite SFdiv_core_binary_pow2_gen by lia. rewrite fexp_eq.
  set (e' := Z.min (Z.max (Zdigits2 (Z.pos pa) + 0 - (1 + 1 + 0) - 53) (-1074)) (0 - 0)).
  set (s := 0 - 0 - e').
  assert (Hs : 0 <= s <= 1 /\ (Zdigits2 (Z.pos pa) = 54 -> s = 1)
               /\ (55 <= Zdigits2 (Z.pos pa) -> s = 0)) by (unfold s, e'; lia).
  assert (Hp : 0 < 2 ^ s) by (apply Z.pow_pos_nonneg; lia).
  assert (Hdq : Zdigits2 (Z.pos pa * 2 ^ s / 2 ^ 1) = Zdigits2 (Z.pos pa) + s - 1).
  { rewrite Zdigits2_div_pow2; rewrite ?Zdigits2_mul_pow2; try lia. }
  assert (Hq : 0 < Z.pos pa * 2 ^ s / 2 ^ 1).
  { apply Z.div_str_pos. change (2 ^ 1) with 2. split; [lia|].
    pose proof (Zdigits2_bounds (Z.pos pa) Ha) as [Hlo _].
    assert (2 ^ 1 <= 2 ^ (Zdigits2 (Z.pos pa) - 1)) by (apply Z.pow_le_mono_r; lia).
    change (2 ^ 1) with 2 in *. nia. }
  assert (He' : e' = - s) by (unfold s; lia).
  clearbody s. clearbody e'. subst e'.
  destruct (binary_round_aux_normal (Z.pos pa * 2 ^ s / 2 ^ 1) (- s)
              (new_location (2 ^ 1) ((Z.pos pa * 2 ^ s) mod 2 ^ 1)) Hq
              ltac:(rewrite Hdq; lia) ltac:(rewrite Hdq; lia) ltac:(rewrite Hdq; lia))
    as (m & e & E & Hm & He).
  exists m, e. rewrite E. split; [reflexivity|]. split; [assumption|].
  rewrite Hdq in He. lia.
Qed.

End Binary64.

(* ================================================================= *)
(** * The two loops *)

Section Loops.

Lemma for_each_cons {S : Type} (r : nat) (rs : list nat)
    (body : nat -> S -> result S) (s s' : S) :
  body r s = Ok s' -> for_each (r :: rs) body s = for_each rs body s'.
Proof. intros E. simpl. now rewrite E. Qed.

(** One iteration of the generator's loop on a normal double. *)
Lemma generator_stage_normal (m : positive) (e : Z) (r : nat) (x : tensor) :
  digits2_pos m = 53%positive -> -1072 <= e <= 971 ->
  generator_stage r (x, Py.Float (S754_finite false m e))
  = Ok (upsample_stage r (truncated (S754_finite false m e)) x,
        Py.Float (S754_finite false m (e - 1))).
Proof.
  intros Hm He. unfold generator_stage.
  rewrite float_truediv_normal by assumption. reflexivity.
Qed.

Lemma upsample_chain_ext (g g' : nat -> Z) (n : nat) :
  forall (a : nat) (x : tensor),
  (forall r, (a <= r < a + n)%nat -> g r = g' r) ->
  upsample_chain g a n x = upsample_chain g' a n x.
Proof.
  induction n as [|n IH]; intros a x Hg; [reflexivity|].
  cbn [upsample_chain]. rewrite (Hg a) by lia. apply IH.
  intros r Hr. apply Hg. lia.
Qed.

(** The whole loop: [n] iterations, each lowering the exponent by one. *)
Lemma generator_loop_normal (m : positive) (n : nat) :
  forall (a : nat) (e : Z) (x : tensor),
  digits2_pos m = 53%positive -> Z.of_nat n - 1073 <= e <= 971 ->
  for_each (seq a n) generator_stage (x, Py.Float (S754_finite false m e))
  = Ok (upsample_chain
          (fun r => truncated (S754_finite false m (e - (Z.of_nat r - Z.of_nat a)))) a n x,
        Py.Float (S754_finite false m (e - Z.of_nat n))).
Proof.
  induction n as [|n IH]; intros a e x Hm He.
  - simpl. now rewrite Z.sub_0_r.
  - cbn [seq].
    rewrite (for_each_cons _ _ _ _ _ (generator_stage_normal m e a x Hm ltac:(lia))).
    rewrite IH by (assumption || lia). cbn [upsample_chain].
    replace (e - 1 - Z.of_nat n) with (e - Z.of_nat (S n)) by lia.
    replace (Z.of_nat a - Z.of_nat a) with 0 by lia. rewrite Z.sub_0_r.
    do 2 f_equal. apply upsample_chain_ext. intros r Hr. do 2 f_equal. lia.
Qed.

Lemma discriminator_loop (n : nat) :
  forall (a : nat) (f : Z) (x : tensor),
  for_each (seq a n) discriminator_stage (x, f)
  = Ok (downsample_chain a n f x, f * 2 ^ Z.of_nat n).
Proof.
  induction n as [|n IH]; intros a f x.
  - simpl. now rewrite Z.mul_1_r.
  - cbn [seq for_each discriminator_stage Py.int bind].
    rewrite IH. cbn [downsample_chain]. do 2 f_equal.
    rewrite Nat2Z.inj_succ, Z.pow_succ_r by lia. ring.
Qed.

(** *** Stages of a chain *)

Lemma stages_upsample_stage (r : nat) (f : Z) (x : tensor) :
  exists pre proj,
    stages (upsample_stage r f x) = (stages x ++ [(pre, proj)])%list
    /\ block_parts pre
       = Some (Conv2DTranspose f (make_name "deconv_block" "deconv" (Some (Z.of_nat r + 1))), x)
    /\ block_parts proj
       = Some (Conv2D f 1 1 (make_name "conv_1by1" "conv" (Some (Z.of_nat r + 1))), pre).
Proof. do 2 eexists. repeat split. Qed.

Lemma stages_downsample_stage (r : nat) (f : Z) (x : tensor) :
  exists pre proj,
    stages (downsample_stage r f x) = (stages x ++ [(pre, proj)])%list
    /\ block_parts pre
       = Some (Conv2D f 3 2 (make_name "conv_block" "conv" (Some (Z.of_nat r + 1))), x)
    /\ block_parts proj
       = Some (Conv2D f 1 1 (make_name "conv_1by1" "conv" (Some (Z.of_nat r + 1))), pre).
Proof. do 2 eexists. repeat split. Qed.

Lemma stage_filters_app (t : tensor) (pre proj : tensor) (ss : list (tensor * tensor)) :
  stages t = (ss ++ [(pre, proj)])%list ->
  stage_filters t
  = (map (fun ab => (block_filters (fst ab), block_filters (snd ab))) ss
     ++ [(block_filters pre, block_filters proj)])%list.
Proof. intros E. unfold stage_filters. rewrite E, map_app. reflexivity. Qed.

Lemma block_filters_parts (t x : tensor) (l : layer) :
  block_parts t = Some (l, x) -> block_filters t = layer_filters l.
Proof. intros E. unfold block_filters, block_layer. now rewrite E. Qed.

Lemma stage_filters_upsample_chain (g : nat -> Z) (n : nat) :
  forall (a : nat) (x : tensor),
  stage_filters (upsample_chain g a n x)
  = (stage_filters x ++ map (fun r => (Some (g r), Some (g r))) (seq a n))%list.
Proof.
  induction n as [|n IH]; intros a x.
  - simpl. now rewrite app_nil_r.
  - cbn [upsample_chain]. rewrite IH.
    destruct (stages_upsample_stage a (g a) x) as (pre & proj & E & Ep & Eq).
    rewrite (stage_filters_app _ _ _ _ E).
    rewrite (block_filters_parts _ _ _ Ep), (block_filters_parts _ _ _ Eq).
    fold (stage_filters x). cbn [layer_filters seq map].
    rewrite <- app_assoc. reflexivity.
Qed.

Lemma stage_filters_downsample_chain (n : nat) :
  forall (a : nat) (f : Z) (x : tensor),
  stage_filters (downsample_chain a n f x)
  = (stage_filters x
     ++ map (fun i => (Some (f * 2 ^ Z.of_nat i), Some (f * 2 ^ Z.of_nat i)))
            (seq 0 n))%list.
Proof.
  induction n as [|n IH]; intros a f x.
  - simpl. now rewrite app_nil_r.
  - cbn [downsample_chain]. rewrite IH.
    destruct (stages_downsample_stage a f x) as (pre & proj & E & Ep & Eq).
    rewrite (stage_filters_app _ _ _ _ E).
    rewrite (block_filters_parts _ _ _ Ep), (block_filters_parts _ _ _ Eq).
    fold (stage_filters x). cbn [layer_filters seq map].
    rewrite <- app_assoc. cbn [app]. rewrite Z.mul_1_r.
    do 2 f_equal. rewrite <- seq_shift, map_map.
    apply map_ext. intros i.
    rewrite Nat2Z.inj_succ, Z.pow_succ_r by lia.
    do 2 f_equal; ring.
Qed.

(** *** The main path and the stem *)


Lemma main_path_downsample_chain (n : nat) :
  forall (a : nat) (f : Z) (x : tensor),
  exists tail, main_path (downsample_chain a n f x) = (main_path x ++ tail)%list.
Proof.
  induction n as [|n IH]; intros a f x.
  - exists []. simpl. now rewrite app_nil_r.
  - cbn [downsample_chain].
    destruct (IH (S a) (f * 2) (downsample_stage a f x)) as [tail E].
    rewrite E. cbn. rewrite <- !app_assoc. eexists. reflexivity.
Qed.

(** The stem stays the first convolution however the path goes on. *)
Lemma stem_filters_extend (x y : tensor) (tail : list layer) (f : Z) :
  main_path y = (main_path x ++ tail)%list ->
  stem_filters x = Some f -> stem_filters y = Some f.
Proof.
  unfold stem_filters. intros -> Hx. rewrite filter_app.
  destruct (filter _ (main_path x)) as [|l ls]; [discriminate | exact Hx].
Qed.

(** *** Shapes along a chain *)

Lemma ceil_div_1 (n : Z) : ceil_div n 1 = n.
Proof. unfold ceil_div. rewrite Z.div_1_r. lia. Qed.

Lemma ceil_div_pow2 (k : Z) : 0 <= k -> ceil_div (2 ^ (k + 1)) 2 = 2 ^ k.
Proof.
  intros Hk. unfold ceil_div. rewrite Z.pow_add_r by lia. change (2 ^ 1) with 2.
  replace (2 ^ k * 2 + 2 - 1) with (1 + 2 ^ k * 2) by lia.
  rewrite Z.div_add by lia. reflexivity.
Qed.

Lemma broadcast_aligned_refl (sh : list Z) : broadcast_aligned sh sh = Some sh.
Proof.
  induction sh as [|i sh IH]; [reflexivity|].
  cbn [broadcast_aligned]. rewrite IH, Z.eqb_refl.
  destruct (i =? 1); reflexivity.
Qed.

Lemma elemwise_shape_refl (sh : list Z) : elemwise_shape sh sh = Some sh.
Proof.
  unfold elemwise_shape. rewrite Nat.ltb_irrefl, Nat.sub_diag.
  cbn [skipn firstn app]. now rewrite broadcast_aligned_refl.
Qed.

Lemma shape_conv_block (x : tensor) (f : Z) (b : string) (i : option Z)
    (pooling one_by_one sig : bool) (h w ch : Z) :
  shape_of x = Some [h; w; ch] -> 0 < f ->
  shape_of (conv_block x f b i pooling one_by_one sig)
  = Some [ceil_div h (if pooling then 2 else 1);
          ceil_div w (if pooling then 2 else 1); f].
Proof.
  intros Hx Hf. unfold conv_block. cbn [shape_of map]. rewrite Hx.
  cbn [layer_shape].
  replace (0 <? f) with true by (symmetry; apply Z.ltb_lt; assumption).
  destruct pooling, one_by_one; reflexivity.
Qed.

Lemma shape_deconv_block (x : tensor) (f : Z) (b : string) (i : option Z)
    (h w ch : Z) :
  shape_of x = Some [h; w; ch] -> 0 < f ->
  shape_of (deconv_block x f b i) = Some [h * 2; w * 2; f].
Proof.
  intros Hx Hf. unfold deconv_block. cbn [shape_of map]. rewrite Hx.
  cbn [layer_shape].
  replace (0 <? f) with true by (symmetry; apply Z.ltb_lt; assumption).
  reflexivity.
Qed.

Lemma shape_add (name : string) (a b : tensor) (sh : list Z) :
  shape_of a = Some sh -> shape_of b = Some sh ->
  shape_of (Call (Add name) [a; b]) = Some sh.
Proof.
  intros Ha Hb. cbn [shape_of map]. rewrite Ha, Hb. cbn [layer_shape].
  apply elemwise_shape_refl.
Qed.

Lemma shape_upsample_stage (r : nat) (f : Z) (x : tensor) (h w ch : Z) :
  shape_of x = Some [h; w; ch] -> 0 < f ->
  shape_of (upsample_stage r f x) = Some [h * 2; w * 2; f].
Proof.
  intros Hx Hf. unfold upsample_stage.
  pose proof (shape_deconv_block x f "deconv_block" (Some (Z.of_nat r + 1))
                h w ch Hx Hf) as Hpre.
  apply shape_add; [assumption|].
  rewrite (shape_conv_block _ _ _ _ _ _ _ _ _ _ Hpre Hf), !ceil_div_1.
  reflexivity.
Qed.

Lemma shape_downsample_stage (r : nat) (f : Z) (x : tensor) (k ch : Z) :
  shape_of x = Some [2 ^ (k + 1); 2 ^ (k + 1); ch] -> 0 <= k -> 0 < f ->
  shape_of (downsample_stage r f x) = Some [2 ^ k; 2 ^ k; f].
Proof.
  intros Hx Hk Hf. unfold downsample_stage.
  pose proof (shape_conv_block x f "conv_block" (Some (Z.of_nat r + 1))
                true false false _ _ _ Hx Hf) as Hpre.
  rewrite !ceil_div_pow2 in Hpre by assumption.
  apply shape_add; [assumption|].
  rewrite (shape_conv_block _ _ _ _ _ _ _ _ _ _ Hpre Hf), !ceil_div_1.
  reflexivity.
Qed.

Lemma shape_upsample_chain (g : nat -> Z) (n : nat) :
  forall (a : nat) (x : tensor) (h w ch : Z),
  (forall r, (a <= r < a + n)%nat -> 0 < g r) ->
  shape_of x = Some [h; w; ch] ->
  exists ch', shape_of (upsample_chain g a n x)
              = Some [h * 2 ^ Z.of_nat n; w * 2 ^ Z.of_nat n; ch'].
Proof.
  induction n as [|n IH]; intros a x h w ch Hg Hx.
  - exists ch. simpl. now rewrite !Z.mul_1_r.
  - cbn [upsample_chain].
    assert (Hf : 0 < g a) by (apply Hg; lia).
    destruct (IH (S a) _ _ _ _ ltac:(intros r Hr; apply Hg; lia)
                 (shape_upsample_stage a _ x h w ch Hx Hf)) as [ch' E].
    exists ch'. rewrite E, Nat2Z.inj_succ, Z.pow_succ_r by lia.
    rewrite <- !Z.mul_assoc. reflexivity.
Qed.

Lemma shape_downsample_chain (n : nat) :
  forall (a : nat) (f : Z) (x : tensor) (k ch : Z),
  0 < f -> 0 <= k ->
  shape_of x = Some [2 ^ (k + Z.of_nat n); 2 ^ (k + Z.of_nat n); ch] ->
  exists ch', shape_of (downsample_chain a n f x) = Some [2 ^ k; 2 ^ k; ch'].
Proof.
  induction n as [|n IH]; intros a f x k ch Hf Hk Hx.
  - exists ch. simpl in *. now rewrite Z.add_0_r in Hx.
  - cbn [downsample_chain].
    replace (k + Z.of_nat (S n)) with (k + Z.of_nat n + 1) in Hx by lia.
    apply (IH (S a) (f * 2) _ k f); try lia.
    apply shape_downsample_stage with (ch := ch); try assumption. lia.
Qed.

(** *** Values *)

Lemma sigmoid_range (x : real) : (0 <= sigmoid x <= 1)%R.
Proof.
  unfold sigmoid. pose proof (exp_pos (- x)) as He.
  assert (H1 : (1 <= 1 + exp (- x))%R) by lra.
  split.
  - apply Rlt_le, Rinv_0_lt_compat. lra.
  - rewrite <- Rinv_1. apply Rinv_le_contravar; lra.
Qed.

End Loops.

(* ================================================================= *)
(** * The builders in closed form *)

Section Builders.

(** The generator, once its first division is known to give a normal
    double that [R] halvings keep normal. *)
Lemma generator_from_normal (V : Z) (R : nat) (L c : Z) (m : positive) (e : Z) :
  Py.int_truediv (L * 2 ^ Z.of_nat R) 2 = Ok (S754_finite false m e) ->
  digits2_pos m = 53%positive -> Z.of_nat R - 1073 <= e <= 971 ->
  generator V R L c
  = Ok (Model [input_layer [V]] [generator_output V R L c (S754_finite false m e)]).
Proof.
  intros Hdiv Hm He.
  unfold generator, generator_output. cbn [Py.truediv]. rewrite Hdiv. cbn [bind].
  unfold for_range. rewrite generator_loop_normal by assumption. cbn [bind].
  do 4 f_equal. apply upsample_chain_ext. intros r _. cbn [halved].
  do 2 f_equal. lia.
Qed.

(** Below [2^53] every division is exact. *)
Lemma generator_ok_exact (V : Z) (R : nat) (L c : Z) :
  1 <= L < 2 ^ 53 -> L * 2 ^ Z.of_nat R < 2 ^ 1025 ->
  generator V R L c
  = Ok (Model [input_layer [V]] [generator_output V R L c (dyadic L (Z.of_nat R - 1))]).
Proof.
  intros HL Hhi.
  destruct (dyadic_normal L HL) as [Hm Hd].
  assert (HdR : Z.of_nat R + Zdigits2 L <= 1025).
  { assert (0 < 2 ^ Z.of_nat R) by (apply Z.pow_pos_nonneg; lia).
    pose proof (Zdigits2_le (L * 2 ^ Z.of_nat R) 1025 ltac:(nia) Hhi) as H'.
    rewrite Zdigits2_mul_pow2 in H' by lia. lia. }
  unfold dyadic. apply generator_from_normal; try assumption; try lia.
  apply int_truediv_dyadic; (assumption || lia).
Qed.

Lemma truncated_halved_dyadic (L j : Z) (r : Z) :
  1 <= L < 2 ^ 53 -> 0 <= j - r ->
  truncated (halved (dyadic L j) r) = L * 2 ^ (j - r).
Proof.
  intros HL Hr.
  replace (halved (dyadic L j) r) with (dyadic L (j - r))
    by (unfold dyadic, halved; f_equal; lia).
  unfold truncated. now rewrite int_of_float_dyadic.
Qed.

(** The same for a 53-bit integer times a power of two. *)
Lemma generator_ok_dyadic (V : Z) (R : nat) (m k c : Z) :
  1 <= m < 2 ^ 53 -> 0 <= k -> m * 2 ^ k * 2 ^ Z.of_nat R < 2 ^ 1025 ->
  generator V R (m * 2 ^ k) c
  = Ok (Model [input_layer [V]]
              [generator_output V R (m * 2 ^ k) c (dyadic m (k + Z.of_nat R - 1))]).
Proof.
  intros Hm Hk Hhi.
  destruct (dyadic_normal m Hm) as [Hmm Hd].
  assert (E : m * 2 ^ k * 2 ^ Z.of_nat R = m * 2 ^ (k + Z.of_nat R))
    by (rewrite Z.pow_add_r by lia; ring).
  assert (HdR : k + Z.of_nat R + Zdigits2 m <= 1025).
  { assert (0 < 2 ^ (k + Z.of_nat R)) by (apply Z.pow_pos_nonneg; lia).
    rewrite E in Hhi.
    pose proof (Zdigits2_le (m * 2 ^ (k + Z.of_nat R)) 1025 ltac:(nia) Hhi) as H'.
    rewrite Zdigits2_mul_pow2 in H' by lia. lia. }
  unfold dyadic. apply generator_from_normal; try assumption; try lia.
  rewrite E. apply int_truediv_dyadic; (assumption || lia).
Qed.

(** From [2^53] on the first division may round, yet it gives a normal
    double with a non-negative exponent, and every later [int()] a
    positive integer. *)
Lemma generator_ok_rounded (V : Z) (R : nat) (L c : Z) :
  2 ^ 53 <= L -> L * 2 ^ Z.of_nat R < 2 ^ 1024 ->
  exists (m : positive) (e : Z),
    generator V R L c
    = Ok (Model [input_layer [V]] [generator_output V R L c (S754_finite false m e)])
    /\ Z.of_nat R <= e.
Proof.
  intros HL Hhi.
  assert (HL0 : 0 < L) by (change (2 ^ 53) with 9007199254740992 in HL; lia).
  assert (HR : 0 < 2 ^ Z.of_nat R) by (apply Z.pow_pos_nonneg; lia).
  assert (HdL : 54 <= Zdigits2 L).
  { pose proof (Zdigits2_bounds L HL0) as [_ Hup].
    destruct (Z.le_gt_cases 54 (Zdigits2 L)) as [|Hlt]; [assumption|exfalso].
    pose proof (Zdigits2_pos L HL0).
    assert (2 ^ Zdigits2 L <= 2 ^ 53) by (apply Z.pow_le_mono_r; lia). lia. }
  assert (Hda : Zdigits2 (L * 2 ^ Z.of_nat R) = Zdigits2 L + Z.of_nat R)
    by (apply Zdigits2_mul_pow2; lia).
  assert (Hda' : Zdigits2 (L * 2 ^ Z.of_nat R) <= 1024)
    by (apply Zdigits2_le; [nia | assumption]).
  destruct (int_truediv_rounded (L * 2 ^ Z.of_nat R) ltac:(nia) ltac:(lia))
    as (m & e & Hdiv & Hm & He).
  exists m, e. split; [|lia].
  apply generator_from_normal; try assumption. lia.
Qed.

Lemma truncated_halved_positive (m : positive) (e r : Z) :
  0 <= e - r -> 0 < truncated (halved (S754_finite false m e) r).
Proof.
  intros Hr. unfold truncated. cbn [halved Py.int_of_float cond_Zopp].
  replace (0 <=? e - r) with true by (symmetry; apply Z.leb_le; assumption).
  assert (0 < 2 ^ (e - r)) by (apply Z.pow_pos_nonneg; lia). nia.
Qed.

(** Whenever the largest filter count is below [2^1024], the generator
    is built, and every stage gets a positive filter count. *)
Lemma generator_builds (V : Z) (R : nat) (L c : Z) :
  1 <= L -> L * 2 ^ Z.of_nat R < 2 ^ 1024 ->
  exists x0 : spec_float,
    generator V R L c = Ok (Model [input_layer [V]] [generator_output V R L c x0])
    /\ forall r, (r < R)%nat -> 0 < truncated (halved x0 (Z.of_nat r)).
Proof.
  intros HL Hhi.
  destruct (Z.lt_ge_cases L (2 ^ 53)) as [Hlt|Hge].
  - exists (dyadic L (Z.of_nat R - 1)). split.
    + apply generator_ok_exact; [lia|].
      apply Z.lt_trans with (2 ^ 1024); [assumption | reflexivity].
    + intros r Hr. rewrite truncated_halved_dyadic by lia.
      assert (0 < 2 ^ (Z.of_nat R - 1 - Z.of_nat r)) by (apply Z.pow_pos_nonneg; lia).
      nia.
  - destruct (generator_ok_rounded V R L c Hge Hhi) as (m & e & E & He).
    exists (S754_finite false m e). split; [assumption|].
    intros r Hr. apply truncated_halved_positive. lia.
Qed.

(** Where binary64 holds [last_channels], or there is no stage at all,
    the generator is built and iteration [r] of its loop reads
    [last_channels * 2^(R-1-r)] off [filters]. *)
Lemma generator_builds_exact (V : Z) (R : nat) (L c : Z) :
  1 <= L -> L * 2 ^ Z.of_nat R < 2 ^ 1024 ->
  R = 0%nat \/ binary64_exact L ->
  exists x0 : spec_float,
    generator V R L c = Ok (Model [input_layer [V]] [generator_output V R L c x0])
    /\ forall r, (r < R)%nat ->
         truncated (halved x0 (Z.of_nat r)) = L * 2 ^ (Z.of_nat R - 1 - Z.of_nat r).
Proof.
  intros HL Hhi [-> | (m & e & Hm & He & ->)].
  - destruct (generator_builds V 0 L c HL Hhi) as (x0 & E & _).
    exists x0. split; [exact E|]. intros r Hr. lia.
  - exists (dyadic m (e + Z.of_nat R - 1)). split.
    + apply generator_ok_dyadic; try assumption.
      apply Z.lt_trans with (2 ^ 1024); [assumption | reflexivity].
    + intros r Hr. rewrite truncated_halved_dyadic by lia.
      replace (e + Z.of_nat R - 1 - Z.of_nat r)
        with (e + (Z.of_nat R - 1 - Z.of_nat r)) by lia.
      rewrite Z.pow_add_r by lia. ring.
Qed.

Lemma discriminator_ok (V : Z) (R : nat) (F c : Z) :
  discriminator V R F c
  = Ok (Model [input_layer [2 ^ Z.of_nat R; 2 ^ Z.of_nat R; c]]
              [discriminator_output V R F c]).
Proof.
  unfold discriminator, discriminator_output, for_range.
  rewrite discriminator_loop. reflexivity.
Qed.

Lemma stage_indices_shift {A : Type} (g : Z -> A) (R : nat) :
  map g (stage_indices R) = map (fun i => g (Z.of_nat i + 1)) (seq 0 R).
Proof.
  unfold stage_indices. rewrite <- seq_shift, !map_map.
  apply map_ext. intros i. f_equal. lia.
Qed.

Lemma generator_output_stage_filters (V : Z) (R : nat) (L c : Z) (x0 : spec_float) :
  stage_filters (generator_output V R L c x0)
  = map (fun r => (Some (truncated (halved x0 (Z.of_nat r))),
                   Some (truncated (halved x0 (Z.of_nat r)))))
        (seq 0 R).
Proof.
  unfold generator_output.
  change (stage_filters (conv_block ?x c "prediction_conv" None false false true))
    with (stage_filters x).
  rewrite stage_filters_upsample_chain. reflexivity.
Qed.

Lemma generator_output_stage_filters_counts (V : Z) (R : nat) (L c : Z)
    (x0 : spec_float) :
  (forall r, (r < R)%nat ->
     truncated (halved x0 (Z.of_nat r)) = L * 2 ^ (Z.of_nat R - 1 - Z.of_nat r)) ->
  stage_filters (generator_output V R L c x0)
  = map (fun r => (Some (L * 2 ^ (Z.of_nat R - r)), Some (L * 2 ^ (Z.of_nat R - r))))
        (stage_indices R).
Proof.
  intros Hx. rewrite generator_output_stage_filters, stage_indices_shift.
  apply map_ext_in. intros r Hr. apply in_seq in Hr.
  rewrite Hx by lia.
  do 4 f_equal; lia.
Qed.

Lemma discriminator_output_stage_filters (V : Z) (R : nat) (F c : Z) :
  stage_filters (discriminator_output V R F c)
  = map (fun r => (Some (F * 2 ^ r), Some (F * 2 ^ r))) (stage_indices R).
Proof.
  unfold discriminator_output.
  change (stage_filters (Call ?d [Call ?g [?x]])) with (stage_filters x).
  rewrite stage_filters_downsample_chain, stage_indices_shift. cbn [app].
  apply map_ext. intros i.
  rewrite Z.pow_add_r by lia. change (2 ^ 1) with 2.
  do 2 f_equal; ring.
Qed.


Lemma generator_output_shape (V : Z) (R : nat) (L c : Z) (x0 : spec_float) :
  1 <= V -> 1 <= c -> 1 <= L ->
  (forall r, (r < R)%nat -> 0 < truncated (halved x0 (Z.of_nat r))) ->
  shape_of (generator_output V R L c x0) = Some [2 ^ Z.of_nat R; 2 ^ Z.of_nat R; c].
Proof.
  intros HV Hc HL Hg. unfold generator_output.
  assert (HF : 0 < L * 2 ^ Z.of_nat R).
  { assert (0 < 2 ^ Z.of_nat R) by (apply Z.pow_pos_nonneg; lia). nia. }
  assert (Hin : shape_of (Call (Reshape [1; 1; V]) [input_layer [V]]) = Some [1; 1; V]).
  { cbn [shape_of input_layer map layer_shape forallb].
    replace (0 <? V) with true by (symmetry; apply Z.ltb_lt; lia).
    cbn [andb size fold_right].
    replace (V * 1 =? 1 * (1 * (V * 1))) with true by (symmetry; apply Z.eqb_eq; ring).
    reflexivity. }
  pose proof (shape_conv_block _ _ "stem" None false true false _ _ _ Hin HF) as Hstem.
  rewrite !ceil_div_1 in Hstem.
  destruct (shape_upsample_chain (fun r => truncated (halved x0 (Z.of_nat r)))
              R 0 _ _ _ _ ltac:(intros r Hr; apply Hg; lia) Hstem) as [ch' Hchain].
  rewrite !Z.mul_1_l in Hchain.
  assert (Hc' : 0 < c) by lia.
  rewrite (shape_conv_block _ _ _ _ _ _ _ _ _ _ Hchain Hc'), !ceil_div_1.
  reflexivity.
Qed.

Lemma discriminator_output_shape (V : Z) (R : nat) (F c : Z) :
  0 <= V -> 1 <= c -> 1 <= F ->
  shape_of (discriminator_output V R F c) = Some [V + 1].
Proof.
  intros HV Hc HF. unfold discriminator_output.
  assert (HR : 0 < 2 ^ Z.of_nat R) by (apply Z.pow_pos_nonneg; lia).
  assert (Hin : shape_of (input_layer [2 ^ Z.of_nat R; 2 ^ Z.of_nat R; c])
                = Some [2 ^ Z.of_nat R; 2 ^ Z.of_nat R; c]).
  { cbn [shape_of input_layer map layer_shape forallb].
    replace (0 <? 2 ^ Z.of_nat R) with true by (symmetry; apply Z.ltb_lt; lia).
    replace (0 <? c) with true by (symmetry; apply Z.ltb_lt; lia).
    reflexivity. }
  assert (HF2 : 0 < F * 2) by lia.
  pose proof (shape_conv_block _ (F * 2) "stem" None false false false _ _ _ Hin
                HF2) as Hstem.
  rewrite !ceil_div_1 in Hstem.
  destruct (shape_downsample_chain R 0 (F * 2) _ 0 _ ltac:(lia) ltac:(lia) Hstem)
    as [ch' Hchain].
  cbn [shape_of map] in *. rewrite Hchain. cbn [layer_shape removelast app].
  replace (0 <? V + 1) with true by (symmetry; apply Z.ltb_lt; lia).
  reflexivity.
Qed.

Lemma generator_output_range (V : Z) (R : nat) (L c : Z) (x0 : spec_float)
    (weights : layer -> list (list real) -> list real) (feed : list real) :
  Forall (fun v => (0 <= v <= 1)%R) (eval weights feed (generator_output V R L c x0)).
Proof.
  unfold generator_output, conv_block. cbn [negb eval].
  apply Forall_map, Forall_forall. intros v _. apply sigmoid_range.
Qed.

End Builders.

(* ================================================================= *)
(** * Layer naming *)

Section Naming.

Lemma make_name_none (b l : string) : make_name b l None = b ++ "_" ++ l.
Proof. reflexivity. Qed.

Lemma make_name_some (b l : string) (i : Z) :
  make_name b l (Some i) = (b ++ "_" ++ l) ++ "_" ++ Py.str i.
Proof. unfold make_name. now rewrite !append_assoc. Qed.

Lemma sub_layer_name_parts (l : string) :
  sub_layer_name l = true -> no_underscore l = true /\ starts_numeric l = false.
Proof.
  unfold sub_layer_name. rewrite andb_true_iff, negb_true_iff. auto.
Qed.

(** C4, as stated, fails: an underscore inside a name moves freely
    between the block name and the layer name, and a layer name may end
    like an index. *)
Lemma make_name_collision :
  make_name "a_b" "c" None = make_name "a" "b_c" None
  /\ ("a_b", "c", @None Z) <> ("a", "b_c", @None Z)
  /\ make_name "a" "b" (Some 1) = make_name "a" "b_1" None
  /\ ("a", "b", Some 1) <> ("a", "b_1", @None Z).
Proof. repeat split; try reflexivity; discriminate. Qed.

Lemma make_name_inj (b1 l1 b2 l2 : string) (i1 i2 : option Z) :
  sub_layer_name l1 = true -> sub_layer_name l2 = true ->
  make_name b1 l1 i1 = make_name b2 l2 i2 ->
  (b1, l1, i1) = (b2, l2, i2).
Proof.
  intros H1 H2.
  destruct (sub_layer_name_parts l1 H1) as [U1 N1].
  destruct (sub_layer_name_parts l2 H2) as [U2 N2].
  destruct i1 as [i|], i2 as [j|];
    rewrite ?make_name_none, ?make_name_some; intros E.
  - apply split_last_underscore in E; try apply str_no_underscore.
    destruct E as [E Eij]. apply str_inj in Eij.
    apply split_last_underscore in E; try assumption.
    destruct E as [-> ->]. now subst.
  - apply split_last_underscore in E; try assumption; try apply str_no_underscore.
    destruct E as [_ E]. rewrite <- E, str_starts_numeric in N2. discriminate.
  - apply split_last_underscore in E; try assumption; try apply str_no_underscore.
    destruct E as [_ E]. rewrite E, str_starts_numeric in N1. discriminate.
  - apply split_last_underscore in E; try assumption.
    destruct E as [-> ->]. reflexivity.
Qed.

(** The four sub-layer names the two blocks pass are of that kind. *)
Lemma block_sub_layer_names :
  Forall (fun l => sub_layer_name l = true) ["conv"; "bn"; "swish"; "deconv"].
Proof. repeat constructor. Qed.

(** C4, amended: on triples whose layer name is a sub-layer name (no
    underscore, not beginning like a number: ["conv"], ["bn"],
    ["swish"], ["deconv"]), whatever the block name and the index, two
    distinct triples get two distinct names. *)
Theorem make_name_collision_free (b1 l1 b2 l2 : string) (i1 i2 : option Z) :
  sub_layer_name l1 = true -> sub_layer_name l2 = true ->
  (b1, l1, i1) <> (b2, l2, i2) ->
  make_name b1 l1 i1 <> make_name b2 l2 i2.
Proof.
  intros H1 H2 Hne E. apply Hne. now apply make_name_inj.
Qed.

Lemma make_name_collision_free_witness :
  sub_layer_name "conv" = true
  /\ sub_layer_name "bn" = true
  /\ ("stem", "conv", Some 1) <> ("stem_conv", "bn", @None Z)
  /\ make_name "stem" "conv" (Some 1) <> make_name "stem_conv" "bn" None.
Proof.
  split; [reflexivity|]. split; [reflexivity|]. split; [discriminate|].
  apply (make_name_collision_free "stem" "conv" "stem_conv" "bn" (Some 1) None);
    [reflexivity | reflexivity | discriminate].
Defined.

(** C9: with the block name and the layer name fixed, two different
    indices, one of which may be absent, give two different names. *)
Theorem make_name_index_distinct (b l : string) (i j : option Z) :
  i <> j -> make_name b l i <> make_name b l j.
Proof.
  intros Hij E. apply Hij. clear Hij.
  destruct i as [i|], j as [j|]; unfold make_name in E;
    apply append_inj_r in E; apply append_inj_r in E.
  - apply append_inj_r in E. apply append_inj_r in E. apply str_inj in E. now subst.
  - apply (f_equal String.length) in E. rewrite append_length in E.
    simpl in E. lia.
  - apply (f_equal String.length) in E. rewrite append_length in E.
    simpl in E. lia.
  - reflexivity.
Qed.

Lemma make_name_index_distinct_witness :
  @None Z <> Some 1
  /\ make_name "conv_block" "conv" None <> make_name "conv_block" "conv" (Some 1).
Proof.
  split; [discriminate|].
  apply (make_name_index_distinct "conv_block" "conv" None (Some 1)). discriminate.
Defined.

End Naming.

(* ================================================================= *)
(** * Filter counts *)

Section FilterCounts.

(** Why the counts below are asked to be ones binary64 holds: beyond
    53 bits a division by 2 can round.  [(2^54 + 2) / 2] is the double
    [2^53], and [int] of it is not [2^53 + 1]. *)
Lemma truediv_rounds_beyond_53_bits :
  (x <- Py.truediv (Py.Int (2 ^ 54 + 2)) (Py.Int 2) ;; Py.int x) = Ok (2 ^ 53).
Proof. vm_compute. reflexivity. Qed.



(** C1 at the module's own configuration ([R = 4], 8 channels on both
    sides): the generator's stages get 64, 32, 16, 8 filters, the
    discriminator's 16, 32, 64, 128; read backwards the first sequence
    is 8, 16, 32, 64, half the second one at every stage. *)
Theorem filter_sequences_at_defaults :
  exists G D g d,
    generator 32 4 8 1 = Ok G /\ output G = Some g
    /\ discriminator 32 4 8 1 = Ok D /\ output D = Some d
    /\ rev (map fst (stage_filters g)) = [Some 8; Some 16; Some 32; Some 64]
    /\ map fst (stage_filters d) = [Some 16; Some 32; Some 64; Some 128].
Proof.
  do 4 eexists. split; [vm_compute; reflexivity|].
  split; [reflexivity|]. split; [vm_compute; reflexivity|].
  split; [reflexivity|]. split; vm_compute; reflexivity.
Qed.

Lemma rev_stage_indices (R : nat) :
  rev (stage_indices R) = map (fun r => Z.of_nat R + 1 - r) (stage_indices R).
Proof.
  unfold stage_indices. induction R as [|R IH].
  - reflexivity.
  - assert (E : rev (map Z.of_nat (seq 1 (S R)))
                = Z.of_nat (1 + R) :: rev (map Z.of_nat (seq 1 R)))
      by (rewrite seq_S, map_app, rev_app_distr; reflexivity).
    rewrite E, IH. cbn [seq map]. f_equal; [lia|].
    rewrite <- (seq_shift R 1), !map_map. apply map_ext. intros i. lia.
Qed.

Lemma stage_indices_positive (R : nat) (r : Z) :
  In r (stage_indices R) -> 1 <= r <= Z.of_nat R.
Proof.
  unfold stage_indices. rewrite in_map_iff. intros (i & <- & Hi).
  apply in_seq in Hi. lia.
Qed.

(** X1, the relation the code has where C1 expects a mirror: for every
    configuration of the generator with a channel count [L] binary64
    holds, taken on both sides, both models are built and the
    discriminator's filter counts are twice the generator's read
    backwards, stage by stage. *)
Theorem discriminator_filters_twice_mirror (V : Z) (R : nat) (L c : Z) :
  generator_config V R L c -> R = 0%nat \/ binary64_exact L ->
  exists G D g d,
    generator V R L c = Ok G /\ output G = Some g
    /\ discriminator V R L c = Ok D /\ output D = Some d
    /\ map fst (stage_filters d)
       = map (option_map (Z.mul 2)) (rev (map fst (stage_filters g))).
Proof.
  intros (HV & Hc & HL & Hhi) Hex.
  destruct (generator_builds_exact V R L c HL Hhi Hex) as (x0 & E & Hx).
  do 4 eexists.
  split; [exact E|]. split; [reflexivity|].
  split; [apply discriminator_ok|]. split; [reflexivity|].
  rewrite (generator_output_stage_filters_counts V R L c x0 Hx),
    discriminator_output_stage_filters.
  rewrite <- !map_rev, !map_map, rev_stage_indices, map_map. cbn [fst option_map].
  apply map_ext_in. intros r Hr. apply stage_indices_positive in Hr.
  f_equal.
  replace (Z.of_nat R - (Z.of_nat R + 1 - r)) with (r - 1) by lia.
  replace r with (1 + (r - 1)) at 1 by lia.
  rewrite Z.pow_add_r by lia. change (2 ^ 1) with 2. ring.
Qed.

Lemma discriminator_filters_twice_mirror_witness :
  generator_config 32 4 8 1 /\ binary64_exact 8
  /\ exists G D g d,
       generator 32 4 8 1 = Ok G /\ output G = Some g
       /\ discriminator 32 4 8 1 = Ok D /\ output D = Some d
       /\ map fst (stage_filters d)
          = map (option_map (Z.mul 2)) (rev (map fst (stage_filters g))).
Proof.
  assert (H : generator_config 32 4 8 1).
  { unfold generator_config. repeat split; try lia; reflexivity. }
  assert (H' : binary64_exact 8).
  { exists 8, 0. repeat split; try lia; reflexivity. }
  split; [exact H|]. split; [exact H'|].
  apply (discriminator_filters_twice_mirror 32 4 8 1 H (or_intror H')).
Defined.

End FilterCounts.

(* ================================================================= *)
(** * Shapes and values of the two models *)

Section Models.

(** C5: for every configuration of the generator, the model is built,
    takes a vector of [V] elements, and gives a tensor of shape
    [(2^R, 2^R, C)] whose elements all lie in [[0, 1]], whatever the
    weights and the input: the last layer is a sigmoid activation. *)
Theorem generator_shape_and_range (V : Z) (R : nat) (L c : Z) :
  generator_config V R L c ->
  exists G x out,
    generator V R L c = Ok G
    /\ inputs G = [x] /\ shape_of x = Some [V]
    /\ output G = Some out
    /\ shape_of out = Some [2 ^ Z.of_nat R; 2 ^ Z.of_nat R; c]
    /\ forall (weights : layer -> list (list real) -> list real) (feed : list real),
         Forall (fun v => (0 <= v <= 1)%R) (eval weights feed out).
Proof.
  intros (HV & Hc & HL & Hhi).
  destruct (generator_builds V R L c HL Hhi) as (x0 & E & Hpos).
  do 3 eexists.
  split; [exact E|].
  split; [reflexivity|].
  split.
  { cbn [shape_of input_layer map layer_shape forallb].
    replace (0 <? V) with true by (symmetry; apply Z.ltb_lt; lia). reflexivity. }
  split; [reflexivity|].
  split; [apply generator_output_shape; assumption|].
  intros weights feed. apply generator_output_range.
Qed.

Lemma generator_shape_and_range_witness :
  generator_config 32 4 8 1
  /\ exists G x out,
       generator 32 4 8 1 = Ok G
       /\ inputs G = [x] /\ shape_of x = Some [32]
       /\ output G = Some out
       /\ shape_of out = Some [2 ^ Z.of_nat 4; 2 ^ Z.of_nat 4; 1]
       /\ forall (weights : layer -> list (list real) -> list real) (feed : list real),
            Forall (fun v => (0 <= v <= 1)%R) (eval weights feed out).
Proof.
  assert (H : generator_config 32 4 8 1).
  { unfold generator_config. repeat split; try lia; reflexivity. }
  split; [exact H|]. apply (generator_shape_and_range 32 4 8 1 H).
Defined.

(** C6: for every configuration of the discriminator, the model is
    built, takes an image of shape [(2^R, 2^R, C)], and its output is
    what a [Dense] layer of [V + 1] units with no activation gives: a
    vector of length [V + 1]. *)
Theorem discriminator_output_vector (V : Z) (R : nat) (F c : Z) :
  discriminator_config V R F c ->
  exists D x out pooled,
    discriminator V R F c = Ok D
    /\ inputs D = [x] /\ shape_of x = Some [2 ^ Z.of_nat R; 2 ^ Z.of_nat R; c]
    /\ output D = Some out
    /\ out = Call (Dense (V + 1) None "prediction") [pooled]
    /\ shape_of out = Some [V + 1].
Proof.
  intros (HV & Hc & HF). do 4 eexists.
  split; [apply discriminator_ok|].
  split; [reflexivity|].
  split.
  { assert (0 < 2 ^ Z.of_nat R) by (apply Z.pow_pos_nonneg; lia).
    cbn [shape_of input_layer map layer_shape forallb].
    replace (0 <? 2 ^ Z.of_nat R) with true by (symmetry; apply Z.ltb_lt; lia).
    replace (0 <? c) with true by (symmetry; apply Z.ltb_lt; lia).
    reflexivity. }
  split; [reflexivity|].
  split; [reflexivity|].
  apply discriminator_output_shape; assumption.
Qed.

Lemma discriminator_output_vector_witness :
  discriminator_config 32 4 8 1
  /\ exists D x out pooled,
       discriminator 32 4 8 1 = Ok D
       /\ inputs D = [x] /\ shape_of x = Some [2 ^ Z.of_nat 4; 2 ^ Z.of_nat 4; 1]
       /\ output D = Some out
       /\ out = Call (Dense (32 + 1) None "prediction") [pooled]
       /\ shape_of out = Some [32 + 1].
Proof.
  assert (H : discriminator_config 32 4 8 1).
  { unfold discriminator_config. lia. }
  split; [exact H|]. apply (discriminator_output_vector 32 4 8 1 H).
Defined.

End Models.

(* ================================================================= *)
(** * The residual stages of the discriminator *)

Section Residual.

Lemma stages_downsample_chain (n : nat) :
  forall (a : nat) (f : Z) (x : tensor),
  exists ss,
    stages (downsample_chain a n f x) = (stages x ++ ss)%list
    /\ List.length ss = n /\ Forall downsample_residual ss.
Proof.
  induction n as [|n IH]; intros a f x.
  - exists []. simpl. rewrite app_nil_r. auto.
  - cbn [downsample_chain].
    destruct (IH (S a) (f * 2) (downsample_stage a f x)) as (ss & E & Hlen & Hall).
    destruct (stages_downsample_stage a f x) as (pre & proj & E1 & Ep & Eq).
    exists ((pre, proj) :: ss). rewrite E, E1, <- app_assoc.
    split; [reflexivity|]. split; [simpl; congruence|].
    constructor; [|assumption].
    unfold downsample_residual. cbn [fst snd]. eauto 6.
Qed.

(** The parallel wiring cannot be built where the stage takes a map
    of side 4 or more: a one-by-one block with stride 1 keeps the
    resolution the stride-2 block halves, and [Add] refuses the two
    shapes. *)
Lemma parallel_downsample_stage_ill_shaped (r : nat) (f : Z) (x : tensor) (k ch : Z) :
  shape_of x = Some [2 ^ (k + 1); 2 ^ (k + 1); ch] -> 1 <= k -> 0 < f ->
  shape_of (parallel_downsample_stage r f x) = None.
Proof.
  intros Hx Hk Hf. unfold parallel_downsample_stage.
  pose proof (shape_conv_block x f "conv_block" (Some (Z.of_nat r + 1))
                true false false _ _ _ Hx Hf) as Hpre.
  pose proof (shape_conv_block x f "conv_1by1" (Some (Z.of_nat r + 1))
                false true false _ _ _ Hx Hf) as Hproj.
  rewrite !ceil_div_pow2 in Hpre by lia. rewrite !ceil_div_1 in Hproj.
  cbn [shape_of map] in *. rewrite Hpre, Hproj. cbn [layer_shape].
  assert (H2 : 2 <= 2 ^ k).
  { change 2 with (2 ^ 1) at 1. apply Z.pow_le_mono_r; lia. }
  assert (E : 2 ^ (k + 1) = 2 ^ k * 2)
    by (rewrite Z.pow_add_r by lia; reflexivity).
  unfold elemwise_shape.
  cbn [List.length Nat.ltb Nat.leb Nat.sub skipn firstn app broadcast_aligned].
  rewrite Z.eqb_refl.
  replace (2 ^ k =? 1) with false by (symmetry; apply Z.eqb_neq; lia).
  replace (2 ^ (k + 1) =? 1) with false by (symmetry; apply Z.eqb_neq; lia).
  replace (2 ^ k =? 2 ^ (k + 1)) with false by (symmetry; apply Z.eqb_neq; lia).
  destruct (f =? 1); reflexivity.
Qed.

(** At the last stage, on a map of side 2, the framework would accept
    it, spreading the single position of the stride-2 branch over the
    map the one-by-one block keeps: the stage would not halve. *)
Lemma parallel_downsample_stage_broadcast (r : nat) (f : Z) (x : tensor) (ch : Z) :
  shape_of x = Some [2; 2; ch] -> 0 < f ->
  shape_of (parallel_downsample_stage r f x) = Some [2; 2; f].
Proof.
  intros Hx Hf. unfold parallel_downsample_stage.
  pose proof (shape_conv_block x f "conv_block" (Some (Z.of_nat r + 1))
                true false false _ _ _ Hx Hf) as Hpre.
  pose proof (shape_conv_block x f "conv_1by1" (Some (Z.of_nat r + 1))
                false true false _ _ _ Hx Hf) as Hproj.
  rewrite !ceil_div_1 in Hproj.
  change (ceil_div 2 2) with 1 in Hpre.
  cbn [shape_of map] in *. rewrite Hpre, Hproj. cbn [layer_shape].
  unfold elemwise_shape.
  cbn [List.length Nat.ltb Nat.leb Nat.sub skipn firstn app broadcast_aligned].
  rewrite Z.eqb_refl. change (1 =? 1) with true. cbn match.
  destruct (f =? 1) eqn:Ef; [|reflexivity].
  apply Z.eqb_eq in Ef. now subst f.
Qed.

(** C2, as stated, fails: in the one-stage discriminator the one-by-one
    block is called on [pre], the output of the stride-2 block, not on
    the tensor that block was called on. *)
Lemma discriminator_projection_input :
  exists D out pre proj,
    discriminator 32 1 8 1 = Ok D
    /\ output D = Some out
    /\ stages out = [(pre, proj)]
    /\ block_layer pre = Some (Conv2D 16 3 2 "conv_block_conv_1")
    /\ block_layer proj = Some (Conv2D 16 1 1 "conv_1by1_conv_1")
    /\ block_input proj = Some pre
    /\ block_input proj <> block_input pre.
Proof.
  do 4 eexists. split; [vm_compute; reflexivity|].
  do 5 (split; [reflexivity|]). discriminate.
Qed.

(** C2, amended: for every configuration of the discriminator, the
    model is built with [R] residual stages; in each, the main branch
    is a stride-2 block, the one-by-one block is applied to the output
    of that stride-2 block (the down-sampled tensor), and its result is
    added to that same down-sampled tensor. *)
Theorem discriminator_residual_stages (V : Z) (R : nat) (F c : Z) :
  discriminator_config V R F c ->
  exists D out,
    discriminator V R F c = Ok D
    /\ output D = Some out
    /\ List.length (stages out) = R
    /\ Forall downsample_residual (stages out).
Proof.
  intros _.
  do 2 eexists. split; [apply discriminator_ok|]. split; [reflexivity|].
  unfold discriminator_output.
  change (stages (Call ?d [Call ?g [?x]])) with (stages x).
  match goal with |- context [downsample_chain 0 R ?f ?x] =>
    destruct (stages_downsample_chain R 0 f x) as (ss & E & Hlen & Hall) end.
  rewrite E. split; assumption.
Qed.

Lemma discriminator_residual_stages_witness :
  discriminator_config 32 4 8 1
  /\ exists D out,
       discriminator 32 4 8 1 = Ok D
       /\ output D = Some out
       /\ List.length (stages out) = 4%nat
       /\ Forall downsample_residual (stages out).
Proof.
  assert (H : discriminator_config 32 4 8 1).
  { unfold discriminator_config. lia. }
  split; [exact H|]. apply (discriminator_residual_stages 32 4 8 1 H).
Defined.

End Residual.

(* ================================================================= *)
(** * The loss selector *)

Section LossSelector.

Context {T : Type} {ops : TensorOps T}.

(** C3: the tags ["one-hot"] and ["binary"] give a loss function; any
    other string raises a [RuntimeError], and the string itself occurs
    in its message. *)
Theorem adversarial_loss_tags (encoding : string) :
  (encoding = "one-hot" \/ encoding = "binary" ->
   exists f : T -> T -> T, adversarial_loss encoding = Ok f)
  /\ (encoding <> "one-hot" /\ encoding <> "binary" ->
      exists msg, adversarial_loss encoding = Raise (RuntimeError msg)
                  /\ occurs_in encoding msg).
Proof.
  unfold adversarial_loss. split.
  - intros [-> | ->]; eexists; reflexivity.
  - intros [H1 H2].
    apply String.eqb_neq in H1. apply String.eqb_neq in H2. rewrite H1, H2.
    eexists. split; [reflexivity|].
    exists "Encoding '", "' not understood". reflexivity.
Qed.

(** C7: the function returned for ["binary"] is the binary
    cross-entropy between the sigmoid of the last column of [y_true]
    and one minus the sigmoid of the last column of [y_pred]. *)
Theorem adversarial_loss_binary :
  exists f : T -> T -> T,
    adversarial_loss "binary" = Ok f
    /\ forall y_true y_pred,
         f y_true y_pred
         = binary_crossentropy (tf_nn_sigmoid (last_column y_true))
                               (rsub 1 (tf_nn_sigmoid (last_column y_pred))).
Proof. eexists. split; reflexivity. Qed.

(** C8: the function returned for ["one-hot"] is the binary
    cross-entropy between the last columns of the two softmaxes, each
    softmax taken over the whole tensor before its last column is. *)
Theorem adversarial_loss_one_hot :
  exists f : T -> T -> T,
    adversarial_loss "one-hot" = Ok f
    /\ forall y_true y_pred,
         f y_true y_pred
         = binary_crossentropy (last_column (tf_nn_softmax y_true))
                               (last_column (tf_nn_softmax y_pred)).
Proof. eexists. split; reflexivity. Qed.

End LossSelector.

Lemma adversarial_loss_tags_witness :
  ("xyz" <> "one-hot" /\ "xyz" <> "binary")
  /\ exists msg, @adversarial_loss expr expr_ops "xyz" = Raise (RuntimeError msg)
                 /\ occurs_in "xyz" msg.
Proof.
  assert (H : "xyz" <> "one-hot" /\ "xyz" <> "binary") by (split; discriminate).
  split; [exact H|].
  exact (proj2 (@adversarial_loss_tags expr expr_ops "xyz") H).
Defined.

(* ================================================================= *)
(** * Names across a whole graph *)

Section GraphNames.

Lemma nodes_call1 (l : layer) (x : tensor) :
  nodes (Call l [x]) = Call l [x] :: nodes x.
Proof. cbn. now rewrite app_nil_r. Qed.

Lemma nodes_call2 (l : layer) (a b : tensor) :
  nodes (Call l [a; b]) = Call l [a; b] :: (nodes a ++ nodes b)%list.
Proof. cbn. now rewrite app_nil_r. Qed.

Lemma tidy_input (shape : list Z) : tidy (fun _ => False) (input_layer shape).
Proof.
  split.
  - intros u v [<-|[]] [<-|[]] n _ _. reflexivity.
  - intros u [<-|[]] n E. discriminate.
Qed.

Lemma tidy_weaken (P Q : string -> Prop) (t : tensor) :
  (forall n, P n -> Q n) -> tidy P t -> tidy Q t.
Proof. intros HPQ [Hu Hn]. split; [assumption|]. intros u Hu' n E. eauto. Qed.

(** A layer without a name on top of a tidy graph. *)
Lemma tidy_unnamed (P : string -> Prop) (l : layer) (x : tensor) :
  layer_name l = None -> tidy P x -> tidy P (Call l [x]).
Proof.
  intros Hl [Hu Hn]. split.
  - intros u v Hu' Hv' n Eu Ev. rewrite nodes_call1 in Hu', Hv'.
    destruct Hu' as [<-|Hu']; [cbn in Eu; congruence|].
    destruct Hv' as [<-|Hv']; [cbn in Ev; congruence|].
    eauto.
  - intros u Hu' n E. rewrite nodes_call1 in Hu'.
    destruct Hu' as [<-|Hu']; [cbn in E; congruence | eauto].
Qed.

(** A layer with a fresh name on top of a tidy graph. *)
Lemma tidy_named (P : string -> Prop) (l : layer) (x : tensor) (n : string) :
  layer_name l = Some n -> ~ P n -> tidy P x ->
  tidy (fun s => P s \/ s = n) (Call l [x]).
Proof.
  intros Hl Hfresh [Hu Hn]. split.
  - intros u v Hu' Hv' m Eu Ev. rewrite nodes_call1 in Hu', Hv'.
    destruct Hu' as [<-|Hu'], Hv' as [<-|Hv'].
    + reflexivity.
    + cbn in Eu. exfalso. apply Hfresh. apply (Hn v Hv'). congruence.
    + cbn in Ev. exfalso. apply Hfresh. apply (Hn u Hu'). congruence.
    + eauto.
  - intros u Hu' m E. rewrite nodes_call1 in Hu'.
    destruct Hu' as [<-|Hu']; [cbn in E; right; congruence | left; eauto].
Qed.

(** An [Add] with a fresh name over two tensors, the first of which is
    already part of the second. *)
Lemma tidy_merge (P : string -> Prop) (n : string) (a b : tensor) :
  ~ P n -> incl (nodes a) (nodes b) -> tidy P b ->
  tidy (fun s => P s \/ s = n) (Call (Add n) [a; b]).
Proof.
  intros Hfresh Hab [Hu Hn].
  assert (Hin : forall u, In u (nodes a ++ nodes b) -> In u (nodes b)).
  { intros u Hu'. apply in_app_or in Hu'. destruct Hu'; auto. }
  split.
  - intros u v Hu' Hv' m Eu Ev. rewrite nodes_call2 in Hu', Hv'.
    destruct Hu' as [<-|Hu'], Hv' as [<-|Hv'].
    + reflexivity.
    + cbn in Eu. exfalso. apply Hfresh. apply (Hn v (Hin _ Hv')). congruence.
    + cbn in Ev. exfalso. apply Hfresh. apply (Hn u (Hin _ Hu')). congruence.
    + eauto.
  - intros u Hu' m E. rewrite nodes_call2 in Hu'.
    destruct Hu' as [<-|Hu']; [cbn in E; right; congruence | left; eauto].
Qed.

(** *** Which names are fresh *)

Lemma known_name_mono (k k' : Z) (n : string) :
  k <= k' -> known_name k n -> known_name k' n.
Proof.
  intros Hk [l Hl | b l i Hb Hl Hi | i Hi].
  - now apply known_stem.
  - apply known_stage; (assumption || lia).
  - apply known_add. lia.
Qed.

(** The name of an [Add] is no block's layer name. *)
Lemma add_not_block_name (b l s : string) (idx : option Z) :
  In b ("stem" :: "prediction_conv" :: stage_blocks) ->
  "add_" ++ s <> make_name b l idx.
Proof.
  intros Hb E. cbn in Hb.
  destruct Hb as [<-|[<-|[<-|[<-|[<-|[]]]]]]; destruct idx; cbn in E; discriminate.
Qed.

Lemma stage_name_fresh (k : Z) (b l : string) :
  In b stage_blocks -> sub_layer_name l = true ->
  ~ known_name k (make_name b l (Some (k + 1))).
Proof.
  intros Hb Hl H.
  remember (make_name b l (Some (k + 1))) as n eqn:E.
  destruct H as [l' Hl' | b' l' i Hb' Hl' Hi | i Hi].
  - apply make_name_inj in E; [discriminate | assumption..].
  - apply make_name_inj in E; [|assumption..].
    injection E as _ _ E. lia.
  - apply add_not_block_name in E; [assumption|].
    right; right; assumption.
Qed.

Lemma add_name_fresh (k : Z) : ~ known_name k ("add_" ++ Py.str (k + 1)).
Proof.
  intros H.
  remember ("add_" ++ Py.str (k + 1)) as n eqn:E.
  destruct H as [l' Hl' | b' l' i Hb' Hl' Hi | i Hi].
  - symmetry in E. apply add_not_block_name in E; [assumption | now left].
  - symmetry in E. apply add_not_block_name in E; [assumption|].
    right; right; assumption.
  - apply append_inj_r, str_inj in E. lia.
Qed.

Lemma prediction_name_fresh (k : Z) (l : string) :
  sub_layer_name l = true -> ~ known_name k (make_name "prediction_conv" l None).
Proof.
  intros Hl H.
  remember (make_name "prediction_conv" l None) as n eqn:E.
  destruct H as [l' Hl' | b' l' i Hb' Hl' Hi | i Hi].
  - apply make_name_inj in E; [discriminate | assumption..].
  - apply make_name_inj in E; [discriminate | assumption..].
  - apply add_not_block_name in E; [assumption | right; now left].
Qed.

(** A known name begins with [s], [d], [c] or [a]. *)
Lemma known_name_head (k : Z) (n : string) :
  known_name k n ->
  exists (ch : ascii) (rest : string),
    n = String ch rest /\ In ch ["s"; "d"; "c"; "a"]%char.
Proof.
  intros [l Hl | b l i Hb Hl Hi | i Hi].
  - do 2 eexists. split; [reflexivity | cbn; auto].
  - cbn in Hb. destruct Hb as [<-|[<-|[<-|[]]]];
      do 2 eexists; (split; [reflexivity | cbn; auto]).
  - do 2 eexists. split; [reflexivity | cbn; auto].
Qed.

Lemma p_name_fresh (k : Z) (rest : string) : ~ known_name k (String "p" rest).
Proof.
  intros H. apply known_name_head in H. destruct H as (ch & rest' & E & Hch).
  injection E as <- _. cbn in Hch.
  destruct Hch as [E|[E|[E|[E|[]]]]]; discriminate.
Qed.

(** *** One stage, a run of stages, the two models *)

Ltac name_clash E :=
  apply make_name_inj in E; [injection E; intros; congruence | reflexivity || assumption ..].

(** A residual stage with index [k + 1] on a graph whose names are those
    of the stem and of stages [1 .. k]: a three-layer main block named
    after [B], the one-by-one block on its output, and the [Add]. *)
Lemma tidy_residual_stage (k : Z) (main : layer) (B l1 : string) (a : activation)
    (f : Z) (x : tensor) :
  0 <= k ->
  In B stage_blocks -> B <> "conv_1by1" ->
  sub_layer_name l1 = true -> l1 <> "bn" -> l1 <> "swish" ->
  layer_name main = Some (make_name B l1 (Some (k + 1))) ->
  tidy (known_name k) x ->
  let index := Some (k + 1) in
  let pre := Call (Activation a (make_name B "swish" index))
               [Call (BatchNormalization (make_name B "bn" index)) [Call main [x]]] in
  tidy (known_name (k + 1))
       (Call (Add ("add_" ++ Py.str (k + 1)))
             [pre; conv_block pre f "conv_1by1" index false true false]).
Proof.
  intros Hk HB HB' Hl1 Hbn Hsw Hmain Hx index pre.
  assert (H1y1 : In "conv_1by1" stage_blocks) by (cbn; auto).
  pose proof (tidy_named _ _ _ _ Hmain (stage_name_fresh k B l1 HB Hl1) Hx) as T1.
  eapply (tidy_named _ (BatchNormalization (make_name B "bn" index))) in T1;
    [|reflexivity|].
  2:{ intros [H|E]; [now apply (stage_name_fresh k B "bn") in H | name_clash E]. }
  eapply (tidy_named _ (Activation a (make_name B "swish" index))) in T1;
    [|reflexivity|].
  2:{ intros [[H|E]|E];
        [now apply (stage_name_fresh k B "swish") in H | name_clash E | name_clash E]. }
  fold pre in T1.
  eapply (tidy_named _ (Conv2D f 1 1 (make_name "conv_1by1" "conv" index))) in T1;
    [|reflexivity|].
  2:{ intros [[[H|E]|E]|E];
        [now apply (stage_name_fresh k "conv_1by1" "conv") in H
        | name_clash E | name_clash E | name_clash E]. }
  eapply (tidy_named _ (BatchNormalization (make_name "conv_1by1" "bn" index))) in T1;
    [|reflexivity|].
  2:{ intros [[[[H|E]|E]|E]|E];
        [now apply (stage_name_fresh k "conv_1by1" "bn") in H
        | name_clash E | name_clash E | name_clash E | name_clash E]. }
  eapply (tidy_named _ (Activation act_swish (make_name "conv_1by1" "swish" index))) in T1;
    [|reflexivity|].
  2:{ intros [[[[[H|E]|E]|E]|E]|E];
        [now apply (stage_name_fresh k "conv_1by1" "swish") in H
        | name_clash E | name_clash E | name_clash E | name_clash E | name_clash E]. }
  eapply (tidy_merge _ ("add_" ++ Py.str (k + 1)) pre) in T1.
  - eapply tidy_weaken; [|exact T1]. cbn beta.
    intros n [[[[[[[H| ->]| ->]| ->]| ->]| ->]| ->]| ->];
      try (apply known_stage; [assumption || (cbn; auto) | assumption || reflexivity | lia]).
    + apply (known_name_mono k); [lia | assumption].
    + apply known_add. lia.
  - assert (Hblocks : forall b, In b stage_blocks ->
                      In b ("stem" :: "prediction_conv" :: stage_blocks))
      by (intros b Hb; right; right; assumption).
    intros [[[[[[H|E]|E]|E]|E]|E]|E];
      [now apply add_name_fresh in H | apply add_not_block_name in E; auto ..].
  - intros u Hu. rewrite !nodes_call1. do 3 right. exact Hu.
Qed.

Lemma tidy_upsample_stage (r : nat) (f : Z) (x : tensor) :
  tidy (known_name (Z.of_nat r)) x ->
  tidy (known_name (Z.of_nat (S r))) (upsample_stage r f x).
Proof.
  intros Hx. rewrite Nat2Z.inj_succ. unfold Z.succ.
  apply (tidy_residual_stage (Z.of_nat r)
           (Conv2DTranspose f (make_name "deconv_block" "deconv" (Some (Z.of_nat r + 1))))
           "deconv_block" "deconv" act_swish f x);
    try (reflexivity || discriminate || assumption || lia).
  cbn; auto.
Qed.

Lemma tidy_downsample_stage (r : nat) (f : Z) (x : tensor) :
  tidy (known_name (Z.of_nat r)) x ->
  tidy (known_name (Z.of_nat (S r))) (downsample_stage r f x).
Proof.
  intros Hx. rewrite Nat2Z.inj_succ. unfold Z.succ.
  apply (tidy_residual_stage (Z.of_nat r)
           (Conv2D f 3 2 (make_name "conv_block" "conv" (Some (Z.of_nat r + 1))))
           "conv_block" "conv" act_swish f x);
    try (reflexivity || discriminate || assumption || lia).
  cbn; auto.
Qed.

Lemma tidy_upsample_chain (g : nat -> Z) (n : nat) :
  forall (a : nat) (x : tensor),
  tidy (known_name (Z.of_nat a)) x ->
  tidy (known_name (Z.of_nat (a + n))) (upsample_chain g a n x).
Proof.
  induction n as [|n IH]; intros a x Hx.
  - now rewrite Nat.add_0_r.
  - cbn [upsample_chain]. replace (a + S n)%nat with (S a + n)%nat by lia.
    apply IH. now apply tidy_upsample_stage.
Qed.

Lemma tidy_downsample_chain (n : nat) :
  forall (a : nat) (f : Z) (x : tensor),
  tidy (known_name (Z.of_nat a)) x ->
  tidy (known_name (Z.of_nat (a + n))) (downsample_chain a n f x).
Proof.
  induction n as [|n IH]; intros a f x Hx.
  - now rewrite Nat.add_0_r.
  - cbn [downsample_chain]. replace (a + S n)%nat with (S a + n)%nat by lia.
    apply IH. now apply tidy_downsample_stage.
Qed.

(** The stem block on a graph without names. *)
Lemma tidy_stem (x : tensor) (f : Z) (pooling one_by_one sig : bool) :
  tidy (fun _ => False) x ->
  tidy (known_name 0) (conv_block x f "stem" None pooling one_by_one sig).
Proof.
  intros T. unfold conv_block.
  eapply (tidy_named _ (Conv2D f _ _ (make_name "stem" "conv" None))) in T;
    [|reflexivity | tauto].
  eapply (tidy_named _ (BatchNormalization (make_name "stem" "bn" None))) in T;
    [|reflexivity|].
  2:{ intros [[]|E]. discriminate. }
  eapply (tidy_named _ (Activation _ (make_name "stem" "swish" None))) in T;
    [|reflexivity|].
  2:{ intros [[[]|E]|E]; discriminate. }
  eapply tidy_weaken; [|exact T]. cbn beta.
  intros n [[[[]| ->]| ->]| ->]; now apply known_stem.
Qed.

Lemma generator_output_unique_names (V : Z) (R : nat) (L c : Z) (x0 : spec_float) :
  unique_names (generator_output V R L c x0).
Proof.
  unfold generator_output.
  pose proof (tidy_unnamed _ (Reshape [1; 1; V]) _ eq_refl (tidy_input [V])) as T.
  apply (tidy_stem _ (L * 2 ^ Z.of_nat R) false true false) in T.
  apply (tidy_upsample_chain (fun r => truncated (halved x0 (Z.of_nat r))) R 0) in T.
  cbn [Nat.add] in T. unfold conv_block at 1. cbn [negb].
  eapply (tidy_named _ (Conv2D c 3 1 (make_name "prediction_conv" "conv" None))) in T;
    [|reflexivity | now apply prediction_name_fresh].
  eapply (tidy_named _ (BatchNormalization (make_name "prediction_conv" "bn" None))) in T;
    [|reflexivity|].
  2:{ intros [H|E]; [now apply prediction_name_fresh in H | discriminate]. }
  eapply (tidy_named _ (Activation act_sigmoid (make_name "prediction_conv" "swish" None)))
    in T; [|reflexivity|].
  2:{ intros [[H|E]|E]; [now apply prediction_name_fresh in H | discriminate..]. }
  exact (proj1 T).
Qed.

Lemma discriminator_output_unique_names (V : Z) (R : nat) (F c : Z) :
  unique_names (discriminator_output V R F c).
Proof.
  unfold discriminator_output.
  pose proof (tidy_stem _ (F * 2) false false false
                (tidy_input [2 ^ Z.of_nat R; 2 ^ Z.of_nat R; c])) as T.
  apply (tidy_downsample_chain R 0 (F * 2)) in T. cbn [Nat.add] in T.
  eapply (tidy_named _ (GlobalAveragePooling2D "prediction_GAP")) in T;
    [|reflexivity | apply p_name_fresh].
  eapply (tidy_named _ (Dense (V + 1) None "prediction")) in T; [|reflexivity|].
  2:{ intros [H|E]; [now apply p_name_fresh in H | discriminate]. }
  exact (proj1 T).
Qed.

End GraphNames.

(* ================================================================= *)
(** * More about the two models *)

Section MoreModels.

(** X2: for every configuration of the generator, the model is built
    and no two different nodes of its graph carry the same layer
    name. *)
Theorem generator_names_unique (V : Z) (R : nat) (L c : Z) :
  generator_config V R L c ->
  exists G out,
    generator V R L c = Ok G /\ output G = Some out /\ unique_names out.
Proof.
  intros (HV & Hc & HL & Hhi).
  destruct (generator_builds V R L c HL Hhi) as (x0 & E & _).
  do 2 eexists. split; [exact E|]. split; [reflexivity|].
  apply generator_output_unique_names.
Qed.

Lemma generator_names_unique_witness :
  generator_config 32 4 8 1
  /\ exists G out,
       generator 32 4 8 1 = Ok G /\ output G = Some out /\ unique_names out.
Proof.
  assert (H : generator_config 32 4 8 1).
  { unfold generator_config. repeat split; try lia; reflexivity. }
  split; [exact H|]. apply (generator_names_unique 32 4 8 1 H).
Defined.

(** X3: for every configuration of the discriminator, the model is
    built and no two different nodes of its graph carry the same layer
    name. *)
Theorem discriminator_names_unique (V : Z) (R : nat) (F c : Z) :
  discriminator_config V R F c ->
  exists D out,
    discriminator V R F c = Ok D /\ output D = Some out /\ unique_names out.
Proof.
  intros _.
  do 2 eexists. split; [apply discriminator_ok|]. split; [reflexivity|].
  apply discriminator_output_unique_names.
Qed.

Lemma discriminator_names_unique_witness :
  discriminator_config 32 4 8 1
  /\ exists D out,
       discriminator 32 4 8 1 = Ok D /\ output D = Some out /\ unique_names out.
Proof.
  assert (H : discriminator_config 32 4 8 1).
  { unfold discriminator_config. lia. }
  split; [exact H|]. apply (discriminator_names_unique 32 4 8 1 H).
Defined.

Lemma nodes_self (t : tensor) : In t (nodes t).
Proof. destruct t. cbn. now left. Qed.

Lemma nodes_conv_block_input (x : tensor) (f : Z) (b : string) (i : option Z)
    (p o sg : bool) (u : tensor) :
  In u (nodes x) -> In u (nodes (conv_block x f b i p o sg)).
Proof. intros Hu. unfold conv_block. rewrite !nodes_call1. do 3 right. exact Hu. Qed.

Lemma main_path_length_conv_block (x : tensor) (f : Z) (b : string) (i : option Z)
    (p o sg : bool) :
  List.length (main_path (conv_block x f b i p o sg))
  = (3 + List.length (main_path x))%nat.
Proof. unfold conv_block. cbn [main_path]. rewrite !length_app. cbn. lia. Qed.

(** X4: two [conv_block]s with the same block name and the same index
    in one graph do collide: the inner and the outer activation are
    two different nodes with one name. *)
Theorem conv_block_reuse_collides (x : tensor) (f f' : Z) (b : string) (i : option Z)
    (p o sg p' o' sg' : bool) :
  exists u v,
    In u (nodes (conv_block (conv_block x f b i p o sg) f' b i p' o' sg'))
    /\ In v (nodes (conv_block (conv_block x f b i p o sg) f' b i p' o' sg'))
    /\ tensor_name u = Some (make_name b "swish" i)
    /\ tensor_name v = Some (make_name b "swish" i)
    /\ u <> v.
Proof.
  exists (conv_block (conv_block x f b i p o sg) f' b i p' o' sg'),
         (conv_block x f b i p o sg).
  split; [apply nodes_self|].
  split; [apply nodes_conv_block_input, nodes_self|].
  split; [reflexivity|]. split; [reflexivity|].
  intros E. apply (f_equal (fun t => List.length (main_path t))) in E.
  rewrite (main_path_length_conv_block (conv_block x f b i p o sg)) in E. lia.
Qed.

(** *** Activations *)

Lemma sigmoid_free_input (shape : list Z) : sigmoid_free (input_layer shape).
Proof. intros u [<-|[]]. discriminate. Qed.

Lemma sigmoid_free_call (l : layer) (x : tensor) :
  node_activation (Call l [x]) <> Some act_sigmoid ->
  sigmoid_free x -> sigmoid_free (Call l [x]).
Proof.
  intros Hl Hx u Hu. rewrite nodes_call1 in Hu.
  destruct Hu as [<-|Hu]; auto.
Qed.

Lemma sigmoid_free_merge (n : string) (a b : tensor) :
  sigmoid_free a -> sigmoid_free b -> sigmoid_free (Call (Add n) [a; b]).
Proof.
  intros Ha Hb u Hu. rewrite nodes_call2 in Hu.
  destruct Hu as [<-|Hu]; [discriminate|].
  apply in_app_or in Hu. destruct Hu; auto.
Qed.

Lemma sigmoid_free_conv_block (x : tensor) (f : Z) (b : string) (i : option Z)
    (p o : bool) :
  sigmoid_free x -> sigmoid_free (conv_block x f b i p o false).
Proof.
  intros Hx. unfold conv_block. cbn [negb].
  repeat (apply sigmoid_free_call; [discriminate|]). assumption.
Qed.

Lemma sigmoid_free_deconv_block (x : tensor) (f : Z) (b : string) (i : option Z) :
  sigmoid_free x -> sigmoid_free (deconv_block x f b i).
Proof.
  intros Hx. unfold deconv_block.
  repeat (apply sigmoid_free_call; [discriminate|]). assumption.
Qed.

Lemma sigmoid_free_upsample_chain (g : nat -> Z) (n : nat) :
  forall (a : nat) (x : tensor),
  sigmoid_free x -> sigmoid_free (upsample_chain g a n x).
Proof.
  induction n as [|n IH]; intros a x Hx; [assumption|].
  cbn [upsample_chain]. apply IH. unfold upsample_stage.
  apply sigmoid_free_merge; [|apply sigmoid_free_conv_block];
    now apply sigmoid_free_deconv_block.
Qed.

Lemma sigmoid_free_downsample_chain (n : nat) :
  forall (a : nat) (f : Z) (x : tensor),
  sigmoid_free x -> sigmoid_free (downsample_chain a n f x).
Proof.
  induction n as [|n IH]; intros a f x Hx; [assumption|].
  cbn [downsample_chain]. apply IH. unfold downsample_stage.
  apply sigmoid_free_merge; [|apply sigmoid_free_conv_block];
    now apply sigmoid_free_conv_block.
Qed.

(** X5: for every configuration of the generator, the model is built
    and the only node of its graph that applies the sigmoid is its
    output; every other activation is [swish]. *)
Theorem generator_sigmoid_once (V : Z) (R : nat) (L c : Z) :
  generator_config V R L c ->
  exists G out,
    generator V R L c = Ok G /\ output G = Some out
    /\ node_activation out = Some act_sigmoid
    /\ forall u, In u (nodes out) -> u <> out -> 
                 node_activation u = None \/ node_activation u = Some act_swish.
Proof.
  intros (HV & Hc & HL & Hhi).
  destruct (generator_builds V R L c HL Hhi) as (x0 & E & _).
  do 2 eexists. split; [exact E|]. split; [reflexivity|]. split; [reflexivity|].
  intros u Hu Hne. unfold generator_output in *.
  set (x := upsample_chain _ 0 R _) in *.
  assert (Hx : sigmoid_free x).
  { apply sigmoid_free_upsample_chain, sigmoid_free_conv_block.
    apply sigmoid_free_call; [discriminate | apply sigmoid_free_input]. }
  unfold conv_block in Hu, Hne. cbn [negb] in Hu, Hne.
  rewrite !nodes_call1 in Hu.
  destruct Hu as [<-|[<-|[<-|Hu]]]; [congruence | now left | now left |].
  specialize (Hx u Hu).
  destruct (node_activation u) as [[|]|]; auto. congruence.
Qed.

Lemma generator_sigmoid_once_witness :
  generator_config 32 4 8 1
  /\ exists G out,
       generator 32 4 8 1 = Ok G /\ output G = Some out
       /\ node_activation out = Some act_sigmoid
       /\ forall u, In u (nodes out) -> u <> out ->
                    node_activation u = None \/ node_activation u = Some act_swish.
Proof.
  assert (H : generator_config 32 4 8 1).
  { unfold generator_config. repeat split; try lia; reflexivity. }
  split; [exact H|]. apply (generator_sigmoid_once 32 4 8 1 H).
Defined.

(** X6: for every configuration of the discriminator, the model is
    built and never applies a sigmoid: every activation in its graph is
    [swish], and its output node is the [Dense] layer, not an
    activation. *)
Theorem discriminator_sigmoid_free (V : Z) (R : nat) (F c : Z) :
  discriminator_config V R F c ->
  exists D out,
    discriminator V R F c = Ok D /\ output D = Some out
    /\ node_activation out = None
    /\ forall u, In u (nodes out) ->
                 node_activation u = None \/ node_activation u = Some act_swish.
Proof.
  intros _.
  do 2 eexists. split; [apply discriminator_ok|]. split; [reflexivity|].
  split; [reflexivity|].
  intros u Hu. unfold discriminator_output in Hu. rewrite !nodes_call1 in Hu.
  destruct Hu as [<-|[<-|Hu]]; [now left | now left |].
  assert (Hx : sigmoid_free (downsample_chain 0 R (F * 2)
                 (conv_block (input_layer [2 ^ Z.of_nat R; 2 ^ Z.of_nat R; c])
                             (F * 2) "stem" None false false false))).
  { apply sigmoid_free_downsample_chain, sigmoid_free_conv_block, sigmoid_free_input. }
  specialize (Hx u Hu).
  destruct (node_activation u) as [[|]|]; auto. congruence.
Qed.

Lemma discriminator_sigmoid_free_witness :
  discriminator_config 32 4 8 1
  /\ exists D out,
       discriminator 32 4 8 1 = Ok D /\ output D = Some out
       /\ node_activation out = None
       /\ forall u, In u (nodes out) ->
                    node_activation u = None \/ node_activation u = Some act_swish.
Proof.
  assert (H : discriminator_config 32 4 8 1).
  { unfold discriminator_config. lia. }
  split; [exact H|]. apply (discriminator_sigmoid_free 32 4 8 1 H).
Defined.

(** *** Filter counts, stage by stage *)

(** As [generator_builds], with the step from one stage to the next. *)
Lemma generator_builds_halving (V : Z) (R : nat) (L c : Z) :
  1 <= L -> L * 2 ^ Z.of_nat R < 2 ^ 1024 ->
  exists x0 : spec_float,
    generator V R L c = Ok (Model [input_layer [V]] [generator_output V R L c x0])
    /\ (forall i, (i < R)%nat -> 0 < truncated (halved x0 (Z.of_nat i)))
    /\ (forall i, (S i < R)%nat ->
          truncated (halved x0 (Z.of_nat i))
          = 2 * truncated (halved x0 (Z.of_nat (S i)))).
Proof.
  intros HL Hhi.
  destruct (Z.lt_ge_cases L (2 ^ 53)) as [Hlt|Hge].
  - exists (dyadic L (Z.of_nat R - 1)). split; [|split].
    + apply generator_ok_exact; [lia|].
      apply Z.lt_trans with (2 ^ 1024); [assumption | reflexivity].
    + intros i Hi. rewrite truncated_halved_dyadic by lia.
      assert (0 < 2 ^ (Z.of_nat R - 1 - Z.of_nat i)) by (apply Z.pow_pos_nonneg; lia).
      nia.
    + intros i Hi. rewrite !truncated_halved_dyadic by lia.
      replace (Z.of_nat R - 1 - Z.of_nat i)
        with (1 + (Z.of_nat R - 1 - Z.of_nat (S i))) by lia.
      rewrite Z.pow_add_r by lia. change (2 ^ 1) with 2. ring.
  - destruct (generator_ok_rounded V R L c Hge Hhi) as (m & e & E & He).
    exists (S754_finite false m e). split; [assumption|]. split.
    + intros i Hi. apply truncated_halved_positive. lia.
    + intros i Hi. unfold truncated. cbn [halved Py.int_of_float cond_Zopp].
      replace (0 <=? e - Z.of_nat i) with true by (symmetry; apply Z.leb_le; lia).
      replace (0 <=? e - Z.of_nat (S i)) with true by (symmetry; apply Z.leb_le; lia).
      replace (e - Z.of_nat i) with (1 + (e - Z.of_nat (S i))) by lia.
      rewrite Z.pow_add_r by lia. change (2 ^ 1) with 2. ring.
Qed.

(** X7: for every configuration of the generator, the model is
    built, the two blocks of a stage get the same positive filter
    count, and each stage gets exactly half the count of the stage
    before it. *)
Theorem generator_filters_halve (V : Z) (R : nat) (L c : Z) :
  generator_config V R L c ->
  exists G out fs,
    generator V R L c = Ok G /\ output G = Some out
    /\ stage_filters out = map (fun f => (Some f, Some f)) fs
    /\ List.length fs = R
    /\ Forall (fun f => 0 < f) fs
    /\ forall i, (S i < R)%nat -> nth i fs 0 = 2 * nth (S i) fs 0.
Proof.
  intros (HV & Hc & HL & Hhi).
  destruct (generator_builds_halving V R L c HL Hhi) as (x0 & E & Hpos & Hhalf).
  exists (Model [input_layer [V]] [generator_output V R L c x0]),
         (generator_output V R L c x0),
         (map (fun i => truncated (halved x0 (Z.of_nat i))) (seq 0 R)).
  assert (Hnth : forall i, (i < R)%nat ->
            nth i (map (fun i => truncated (halved x0 (Z.of_nat i))) (seq 0 R)) 0
            = truncated (halved x0 (Z.of_nat i))).
  { intros i Hi.
    rewrite (nth_indep _ 0 (truncated (halved x0 (Z.of_nat 0))))
      by (rewrite length_map, length_seq; assumption).
    rewrite (map_nth (fun i => truncated (halved x0 (Z.of_nat i)))), seq_nth by assumption.
    reflexivity. }
  split; [exact E|]. split; [reflexivity|].
  split; [rewrite generator_output_stage_filters, map_map; reflexivity|].
  split; [now rewrite length_map, length_seq|].
  split.
  - apply Forall_map, Forall_forall. intros i Hi. apply in_seq in Hi.
    apply Hpos. lia.
  - intros i Hi. rewrite !Hnth by lia. now apply Hhalf.
Qed.

Lemma generator_filters_halve_witness :
  generator_config 32 4 8 1
  /\ exists G out fs,
       generator 32 4 8 1 = Ok G /\ output G = Some out
       /\ stage_filters out = map (fun f => (Some f, Some f)) fs
       /\ List.length fs = 4%nat
       /\ Forall (fun f => 0 < f) fs
       /\ forall i, (S i < 4)%nat -> nth i fs 0 = 2 * nth (S i) fs 0.
Proof.
  assert (H : generator_config 32 4 8 1).
  { unfold generator_config. repeat split; try lia; reflexivity. }
  split; [exact H|]. apply (generator_filters_halve 32 4 8 1 H).
Defined.

Lemma discriminator_output_stem (V : Z) (R : nat) (F c : Z) :
  stem_filters (discriminator_output V R F c) = Some (F * 2).
Proof.
  unfold discriminator_output.
  set (stem := conv_block _ (F * 2) "stem" None false false false).
  destruct (main_path_downsample_chain R 0 (F * 2) stem) as [tail E].
  eapply (stem_filters_extend stem); [|reflexivity].
  cbn [main_path]. rewrite E, <- !app_assoc. reflexivity.
Qed.

(** X8: for every configuration of the discriminator, the model is
    built, its stem gets [2 * first_channels] filters and both blocks
    of stage [r] ([r = 1 .. R]) get [first_channels * 2^r], each count
    positive: the count of the first stage is that of the stem, and it
    doubles from then on. *)
Theorem discriminator_filters (V : Z) (R : nat) (F c : Z) :
  discriminator_config V R F c ->
  exists D out,
    discriminator V R F c = Ok D /\ output D = Some out
    /\ stem_filters out = Some (F * 2)
    /\ stage_filters out
       = map (fun r => (Some (F * 2 ^ r), Some (F * 2 ^ r))) (stage_indices R)
    /\ (forall r, 0 <= r -> 0 < F * 2 ^ r).
Proof.
  intros (HV & Hc & HF).
  do 2 eexists. split; [apply discriminator_ok|]. split; [reflexivity|].
  split; [apply discriminator_output_stem|].
  split; [apply discriminator_output_stage_filters|].
  intros r Hr. assert (0 < 2 ^ r) by (apply Z.pow_pos_nonneg; lia). nia.
Qed.

Lemma discriminator_filters_witness :
  discriminator_config 32 4 8 1
  /\ exists D out,
       discriminator 32 4 8 1 = Ok D /\ output D = Some out
       /\ stem_filters out = Some (8 * 2)
       /\ stage_filters out
          = map (fun r => (Some (8 * 2 ^ r), Some (8 * 2 ^ r))) (stage_indices 4)
       /\ (forall r, 0 <= r -> 0 < 8 * 2 ^ r).
Proof.
  assert (H : discriminator_config 32 4 8 1).
  { unfold discriminator_config. lia. }
  split; [exact H|]. apply (discriminator_filters 32 4 8 1 H).
Defined.

(** *** The residual stages of the generator *)

Lemma stages_upsample_chain (g : nat -> Z) (n : nat) :
  forall (a : nat) (x : tensor),
  exists ss,
    stages (upsample_chain g a n x) = (stages x ++ ss)%list
    /\ List.length ss = n /\ Forall upsample_residual ss.
Proof.
  induction n as [|n IH]; intros a x.
  - exists []. simpl. rewrite app_nil_r. auto.
  - cbn [upsample_chain].
    destruct (IH (S a) (upsample_stage a (g a) x)) as (ss & E & Hlen & Hall).
    destruct (stages_upsample_stage a (g a) x) as (pre & proj & E1 & Ep & Eq).
    exists ((pre, proj) :: ss). rewrite E, E1, <- app_assoc.
    split; [reflexivity|]. split; [simpl; congruence|].
    constructor; [|assumption].
    unfold upsample_residual. cbn [fst snd]. eauto 6.
Qed.

(** X9: for every configuration of the generator, the model is built
    with exactly [R] residual stages; in each, the main branch is a
    transposed-convolution block, the one-by-one block is applied to
    the output of that block with the same filter count, and the two
    are added. *)
Theorem generator_residual_stages (V : Z) (R : nat) (L c : Z) :
  generator_config V R L c ->
  exists G out,
    generator V R L c = Ok G /\ output G = Some out
    /\ List.length (stages out) = R
    /\ Forall upsample_residual (stages out).
Proof.
  intros (HV & Hc & HL & Hhi).
  destruct (generator_builds V R L c HL Hhi) as (x0 & E & _).
  do 2 eexists. split; [exact E|]. split; [reflexivity|].
  unfold generator_output.
  change (stages (conv_block ?x c "prediction_conv" None false false true))
    with (stages x).
  match goal with |- context [upsample_chain ?g 0 R ?x] =>
    destruct (stages_upsample_chain g R 0 x) as (ss & Ess & Hlen & Hall) end.
  rewrite Ess. split; assumption.
Qed.

Lemma generator_residual_stages_witness :
  generator_config 32 4 8 1
  /\ exists G out,
       generator 32 4 8 1 = Ok G /\ output G = Some out
       /\ List.length (stages out) = 4%nat
       /\ Forall upsample_residual (stages out).
Proof.
  assert (H : generator_config 32 4 8 1).
  { unfold generator_config. repeat split; try lia; reflexivity. }
  split; [exact H|]. apply (generator_residual_stages 32 4 8 1 H).
Defined.

(** *** Feature maps *)

Lemma shape_upsample_chain_channels (g : nat -> Z) (n : nat) :
  forall (a : nat) (x : tensor) (h w ch : Z),
  (forall i, (a <= i < a + n)%nat -> 0 < g i) ->
  shape_of x = Some [h; w; ch] ->
  shape_of (upsample_chain g a n x)
  = Some [h * 2 ^ Z.of_nat n; w * 2 ^ Z.of_nat n;
          match n with O => ch | S n' => g (a + n')%nat end].
Proof.
  induction n as [|n IH]; intros a x h w ch Hg Hx.
  - simpl. now rewrite !Z.mul_1_r.
  - cbn [upsample_chain].
    assert (Hf : 0 < g a) by (apply Hg; lia).
    rewrite (IH (S a) _ _ _ _ ltac:(intros i Hi; apply Hg; lia)
                (shape_upsample_stage a _ x h w ch Hx Hf)).
    rewrite Nat2Z.inj_succ, Z.pow_succ_r, <- !Z.mul_assoc by lia.
    do 4 f_equal. destruct n as [|n'].
    + now rewrite Nat.add_0_r.
    + f_equal. lia.
Qed.

Lemma shape_downsample_chain_channels (n : nat) :
  forall (a : nat) (f : Z) (x : tensor) (k ch : Z),
  0 < f -> 0 <= k ->
  shape_of x = Some [2 ^ (k + Z.of_nat n); 2 ^ (k + Z.of_nat n); ch] ->
  shape_of (downsample_chain a n f x)
  = Some [2 ^ k; 2 ^ k; match n with O => ch | S n' => f * 2 ^ Z.of_nat n' end].
Proof.
  induction n as [|n IH]; intros a f x k ch Hf Hk Hx.
  - simpl in *. now rewrite Z.add_0_r in Hx.
  - cbn [downsample_chain].
    replace (k + Z.of_nat (S n)) with (k + Z.of_nat n + 1) in Hx by lia.
    rewrite (IH (S a) (f * 2) _ k f ltac:(lia) Hk
               (shape_downsample_stage a f x _ ch Hx ltac:(lia) Hf)).
    do 4 f_equal. destruct n as [|n'].
    + cbn. lia.
    + rewrite Nat2Z.inj_succ, Z.pow_succ_r by lia. ring.
Qed.

(** X10: for every configuration of the generator whose
    [last_channels] binary64 holds, or with no stage, the feature map
    the prediction block is applied to has shape
    [(2^R, 2^R, last_channels)]: the last feature map has
    [last_channels] channels. *)
Theorem generator_last_feature_map (V : Z) (R : nat) (L c : Z) :
  generator_config V R L c -> R = 0%nat \/ binary64_exact L ->
  exists G out features,
    generator V R L c = Ok G /\ output G = Some out
    /\ block_input out = Some features
    /\ shape_of features = Some [2 ^ Z.of_nat R; 2 ^ Z.of_nat R; L].
Proof.
  intros (HV & Hc & HL & Hhi) Hex.
  destruct (generator_builds_exact V R L c HL Hhi Hex) as (x0 & E & Hx).
  set (g := fun r : nat => truncated (halved x0 (Z.of_nat r))).
  set (stem := conv_block (Call (Reshape [1; 1; V]) [input_layer [V]])
                 (L * 2 ^ Z.of_nat R) "stem" None false true false).
  exists (Model [input_layer [V]] [generator_output V R L c x0]),
         (generator_output V R L c x0),
         (upsample_chain g 0 R stem).
  split; [exact E|]. split; [reflexivity|].
  split; [reflexivity|].
  assert (HF : 0 < L * 2 ^ Z.of_nat R).
  { assert (0 < 2 ^ Z.of_nat R) by (apply Z.pow_pos_nonneg; lia). nia. }
  assert (Hin : shape_of (Call (Reshape [1; 1; V]) [input_layer [V]]) = Some [1; 1; V]).
  { cbn [shape_of input_layer map layer_shape forallb].
    replace (0 <? V) with true by (symmetry; apply Z.ltb_lt; lia).
    cbn [andb size fold_right].
    replace (V * 1 =? 1 * (1 * (V * 1))) with true by (symmetry; apply Z.eqb_eq; ring).
    reflexivity. }
  pose proof (shape_conv_block _ _ "stem" None false true false _ _ _ Hin HF) as Hstem.
  rewrite !ceil_div_1 in Hstem. fold stem in Hstem.
  assert (Hg : forall i, (0 <= i < 0 + R)%nat -> 0 < g i).
  { intros i Hi. unfold g. rewrite Hx by lia.
    assert (0 < 2 ^ (Z.of_nat R - 1 - Z.of_nat i)) by (apply Z.pow_pos_nonneg; lia).
    nia. }
  rewrite (shape_upsample_chain_channels g R 0 stem _ _ _ Hg Hstem).
  rewrite !Z.mul_1_l. do 4 f_equal. destruct R as [|R'].
  - cbn. lia.
  - cbn [Nat.add]. unfold g. rewrite Hx by lia.
    replace (Z.of_nat (S R') - 1 - Z.of_nat R') with 0 by lia. cbn. lia.
Qed.

Lemma generator_last_feature_map_witness :
  generator_config 32 4 8 1 /\ binary64_exact 8
  /\ exists G out features,
       generator 32 4 8 1 = Ok G /\ output G = Some out
       /\ block_input out = Some features
       /\ shape_of features = Some [2 ^ Z.of_nat 4; 2 ^ Z.of_nat 4; 8].
Proof.
  assert (H : generator_config 32 4 8 1).
  { unfold generator_config. repeat split; try lia; reflexivity. }
  assert (H' : binary64_exact 8).
  { exists 8, 0. repeat split; try lia; reflexivity. }
  split; [exact H|]. split; [exact H'|].
  apply (generator_last_feature_map 32 4 8 1 H (or_intror H')).
Defined.

(** X11: for every configuration of the discriminator, the model is
    built and the feature map it pools has one spatial position and
    [first_channels * 2^max(1, R)] channels: [2 * first_channels] when
    there is no stage, [first_channels * 2^R] otherwise. *)
Theorem discriminator_pooled_features (V : Z) (R : nat) (F c : Z) :
  discriminator_config V R F c ->
  exists D features,
    discriminator V R F c = Ok D
    /\ output D
       = Some (Call (Dense (V + 1) None "prediction")
                    [Call (GlobalAveragePooling2D "prediction_GAP") [features]])
    /\ shape_of features = Some [1; 1; F * 2 ^ Z.max 1 (Z.of_nat R)].
Proof.
  intros (HV & Hc & HF). do 2 eexists.
  split; [apply discriminator_ok|]. split; [reflexivity|].
  assert (HR : 0 < 2 ^ Z.of_nat R) by (apply Z.pow_pos_nonneg; lia).
  assert (Hin : shape_of (input_layer [2 ^ Z.of_nat R; 2 ^ Z.of_nat R; c])
                = Some [2 ^ Z.of_nat R; 2 ^ Z.of_nat R; c]).
  { cbn [shape_of input_layer map layer_shape forallb].
    replace (0 <? 2 ^ Z.of_nat R) with true by (symmetry; apply Z.ltb_lt; lia).
    replace (0 <? c) with true by (symmetry; apply Z.ltb_lt; lia).
    reflexivity. }
  assert (HF2 : 0 < F * 2) by lia.
  pose proof (shape_conv_block _ (F * 2) "stem" None false false false _ _ _ Hin
                HF2) as Hstem.
  rewrite !ceil_div_1 in Hstem.
  rewrite (shape_downsample_chain_channels R 0 (F * 2) _ 0 _ HF2 ltac:(lia) Hstem).
  change (2 ^ 0) with 1. do 4 f_equal. destruct R as [|R'].
  - cbn. lia.
  - replace (Z.max 1 (Z.of_nat (S R'))) with (1 + Z.of_nat R') by lia.
    rewrite Z.pow_add_r by lia. change (2 ^ 1) with 2. ring.
Qed.

Lemma discriminator_pooled_features_witness :
  discriminator_config 32 4 8 1
  /\ exists D features,
       discriminator 32 4 8 1 = Ok D
       /\ output D
          = Some (Call (Dense (32 + 1) None "prediction")
                       [Call (GlobalAveragePooling2D "prediction_GAP") [features]])
       /\ shape_of features = Some [1; 1; 8 * 2 ^ Z.max 1 (Z.of_nat 4)].
Proof.
  assert (H : discriminator_config 32 4 8 1).
  { unfold discriminator_config. lia. }
  split; [exact H|]. apply (discriminator_pooled_features 32 4 8 1 H).
Defined.

(** *** The pair built from one set of options *)

(** X12: for options with positive sizes and a largest filter count
    below [2^1024], both wrappers build their model, the generator
    takes [vector_dim] values, the image it gives has the shape the
    discriminator takes, and the discriminator gives [vector_dim + 1]
    values. *)
Theorem models_with_opt_compose (opt : Options.t) :
  1 <= Options.vector_dim opt -> 1 <= Options.c opt ->
  1 <= Options.num_filters opt ->
  Options.num_filters opt * 2 ^ Z.of_nat (Options.r opt) < 2 ^ 1024 ->
  exists G D g_in g_out d_in d_out image,
    make_generator_with_opt opt = Ok G
    /\ make_discriminator_with_opt opt = Ok D
    /\ inputs G = [g_in] /\ output G = Some g_out
    /\ inputs D = [d_in] /\ output D = Some d_out
    /\ shape_of g_in = Some [Options.vector_dim opt]
    /\ shape_of g_out = Some image
    /\ shape_of d_in = Some image
    /\ shape_of d_out = Some [Options.vector_dim opt + 1].
Proof.
  destruct opt as [V R L c]. cbn [Options.vector_dim Options.r Options.num_filters
                                  Options.c].
  intros HV Hc HL Hhi.
  destruct (generator_builds V R L c HL Hhi) as (x0 & E & Hpos).
  unfold make_generator_with_opt, make_discriminator_with_opt.
  cbn [Options.vector_dim Options.r Options.num_filters Options.c].
  rewrite E, discriminator_ok. cbn [bind].
  assert (HR : 0 < 2 ^ Z.of_nat R) by (apply Z.pow_pos_nonneg; lia).
  do 7 eexists.
  do 2 (split; [reflexivity|]).
  do 4 (split; [reflexivity|]).
  split.
  { cbn [shape_of input_layer map layer_shape forallb].
    replace (0 <? V) with true by (symmetry; apply Z.ltb_lt; lia). reflexivity. }
  split; [apply generator_output_shape; assumption|].
  split.
  { cbn [shape_of input_layer map layer_shape forallb].
    replace (0 <? 2 ^ Z.of_nat R) with true by (symmetry; apply Z.ltb_lt; lia).
    replace (0 <? c) with true by (symmetry; apply Z.ltb_lt; lia).
    reflexivity. }
  apply discriminator_output_shape; lia.
Qed.

Lemma models_with_opt_compose_witness :
  let opt := {| Options.vector_dim := 32; Options.r := 4;
                Options.num_filters := 8; Options.c := 1 |} in
  1 <= Options.vector_dim opt /\ 1 <= Options.c opt
  /\ 1 <= Options.num_filters opt
  /\ Options.num_filters opt * 2 ^ Z.of_nat (Options.r opt) < 2 ^ 1024
  /\ exists G D g_in g_out d_in d_out image,
       make_generator_with_opt opt = Ok G
       /\ make_discriminator_with_opt opt = Ok D
       /\ inputs G = [g_in] /\ output G = Some g_out
       /\ inputs D = [d_in] /\ output D = Some d_out
       /\ shape_of g_in = Some [Options.vector_dim opt]
       /\ shape_of g_out = Some image
       /\ shape_of d_in = Some image
       /\ shape_of d_out = Some [Options.vector_dim opt + 1].
Proof.
  cbv zeta.
  split; [cbn; lia|]. split; [cbn; lia|]. split; [cbn; lia|].
  split; [reflexivity|].
  apply (models_with_opt_compose
           {| Options.vector_dim := 32; Options.r := 4;
              Options.num_filters := 8; Options.c := 1 |});
    cbn; lia.
Defined.

(** *** Names across the two models *)

Lemma nodes_upsample_chain (g : nat -> Z) (n : nat) :
  forall (a : nat) (x u : tensor),
  In u (nodes x) -> In u (nodes (upsample_chain g a n x)).
Proof.
  induction n as [|n IH]; intros a x u Hu; [assumption|].
  cbn [upsample_chain]. apply IH. unfold upsample_stage, deconv_block.
  rewrite nodes_call2, !nodes_call1. right. apply in_or_app. left.
  do 3 right. exact Hu.
Qed.

Lemma nodes_downsample_chain (n : nat) :
  forall (a : nat) (f : Z) (x u : tensor),
  In u (nodes x) -> In u (nodes (downsample_chain a n f x)).
Proof.
  induction n as [|n IH]; intros a f x u Hu; [assumption|].
  cbn [downsample_chain]. apply IH. unfold downsample_stage.
  rewrite nodes_call2. right. apply in_or_app. left.
  now apply nodes_conv_block_input.
Qed.

(** X14: names are unique within each model only.  For every
    configuration of the generator, taken for the discriminator as
    well, both models are built, the two graphs each hold a node named
    ["stem_conv"], and the two are different layers (kernel 1 on the
    reshaped vector, kernel 3 on the image). *)
Theorem models_share_stem_name (V : Z) (R : nat) (L c : Z) :
  generator_config V R L c ->
  exists G D g d u v,
    generator V R L c = Ok G /\ output G = Some g
    /\ discriminator V R L c = Ok D /\ output D = Some d
    /\ In u (nodes g) /\ In v (nodes d)
    /\ tensor_name u = Some "stem_conv" /\ tensor_name v = Some "stem_conv"
    /\ u <> v.
Proof.
  intros (HV & Hc & HL & Hhi).
  destruct (generator_builds V R L c HL Hhi) as (x0 & E & _).
  exists (Model [input_layer [V]] [generator_output V R L c x0]),
         (Model [input_layer [2 ^ Z.of_nat R; 2 ^ Z.of_nat R; c]]
                [discriminator_output V R L c]),
         (generator_output V R L c x0), (discriminator_output V R L c),
         (Call (Conv2D (L * 2 ^ Z.of_nat R) 1 1 "stem_conv")
               [Call (Reshape [1; 1; V]) [input_layer [V]]]),
         (Call (Conv2D (L * 2) 3 1 "stem_conv")
               [input_layer [2 ^ Z.of_nat R; 2 ^ Z.of_nat R; c]]).
  split; [exact E|]. split; [reflexivity|].
  split; [apply discriminator_ok|]. split; [reflexivity|].
  split.
  { unfold generator_output. apply nodes_conv_block_input, nodes_upsample_chain.
    unfold conv_block. rewrite !nodes_call1. do 2 right. now left. }
  split.
  { unfold discriminator_output. rewrite !nodes_call1. do 2 right.
    apply nodes_downsample_chain.
    unfold conv_block. rewrite !nodes_call1. do 2 right. now left. }
  split; [reflexivity|]. split; [reflexivity|].
  intros H. injection H as _ H _. discriminate.
Qed.

Lemma models_share_stem_name_witness :
  generator_config 32 4 8 1
  /\ exists G D g d u v,
       generator 32 4 8 1 = Ok G /\ output G = Some g
       /\ discriminator 32 4 8 1 = Ok D /\ output D = Some d
       /\ In u (nodes g) /\ In v (nodes d)
       /\ tensor_name u = Some "stem_conv" /\ tensor_name v = Some "stem_conv"
       /\ u <> v.
Proof.
  assert (H : generator_config 32 4 8 1).
  { unfold generator_config. repeat split; try lia; reflexivity. }
  split; [exact H|]. apply (models_share_stem_name 32 4 8 1 H).
Defined.

(** *** The activation *)

(** X13: [swish(x)] always lies between 0 and [x]: the sign is kept
    and the size is never increased. *)
Theorem swish_between_zero_and_x (x : real) :
  (Rmin 0 x <= swish x <= Rmax 0 x)%R.
Proof.
  unfold swish. pose proof (sigmoid_range x) as [H0 H1].
  unfold Rmin, Rmax. destruct (Rle_dec 0 x) as [Hx|Hx]; split; nra.
Qed.

End MoreModels.

(* ================================================================= *)
(** * The error of the loss selector *)

Section LossError.

Context {T : Type} {ops : TensorOps T}.

Lemma append_inj_l (a b c : string) : a ++ c = b ++ c -> a = b.
Proof.
  revert b. induction a as [|x a IH]; intros [|y b] E.
  - reflexivity.
  - apply (f_equal String.length) in E. cbn in E.
    rewrite append_length in E. lia.
  - apply (f_equal String.length) in E. cbn in E.
    rewrite append_length in E. lia.
  - cbn in E. injection E as -> E. f_equal. now apply IH.
Qed.

(** X15: the exception tells which tag was refused: two calls that raise
    the same exception were given the same string. *)
Theorem adversarial_loss_error_identifies_tag (e1 e2 : string) (exn : exception) :
  @adversarial_loss T ops e1 = Raise exn ->
  @adversarial_loss T ops e2 = Raise exn ->
  e1 = e2.
Proof.
  unfold adversarial_loss. intros H1 H2.
  destruct (String.eqb e1 "one-hot"); [discriminate|].
  destruct (String.eqb e1 "binary"); [discriminate|].
  destruct (String.eqb e2 "one-hot"); [discriminate|].
  destruct (String.eqb e2 "binary"); [discriminate|].
  rewrite <- H2 in H1. injection H1 as H.
  now apply append_inj_l in H.
Qed.

End LossError.

Lemma adversarial_loss_error_identifies_tag_witness :
  @adversarial_loss expr expr_ops "xyz"
  = Raise (RuntimeError "Encoding 'xyz' not understood")
  /\ "xyz" = "xyz".
Proof.
  split; [reflexivity|].
  apply (@adversarial_loss_error_identifies_tag expr expr_ops "xyz" "xyz"
           (RuntimeError "Encoding 'xyz' not understood")); reflexivity.
Defined.
